(** * Row flattening of [server.go]: dotted CSV headers to a nested record

    The development embeds [buildNestedDict] (server.go, lines 440-461) and
    the per-row loop of [validateBeneficiaries] that drives it (lines
    245-248), together with the part of Go's [strings.Split] that both rely
    on.  Go strings are byte sequences, which is what [string] is here.

    The code is read twice.  The first reading takes the record as a tree of
    finite maps and an in-place update as the updated tree; the properties of
    the flattening are stated and proved on it.  The second reading, in
    [Module Heap], keeps Go's map objects and references in a store, as the
    code has them.  [heap_flatten_row_refines] shows that the second computes
    what the first does, in an object of its own and without touching any
    other.

    Around the flattening, the development also covers [getAccountName] and
    [getBankCountry], the rewriting of the [.env] text by the [token]
    command, and the bookkeeping of the loops of [validateBeneficiaries] and
    [createBeneficiaries], with what the network returns taken as input. *)

From Stdlib Require Import Ascii String.
From stdpp Require Import gmap strings list fin_maps sorting.

Set Warnings "-register-all,-clear-no-such-hyp".

Local Open Scope string_scope.
Local Open Scope list_scope.

(** ** Go's [strings] package, one-byte separators *)

Module Strings.

(** [strings.Index(s, sep)] for a separator of one byte: the offset of its
    first occurrence. *)
Fixpoint Index (s : string) (sep : ascii) : option nat :=
  match s with
  | EmptyString => None
  | String c s' =>
      if Ascii.eqb c sep then Some 0
      else match Index s' sep with
           | Some m => Some (S m)
           | None => None
           end
  end.

(** [strings.Split(s, sep)] for a separator of one byte.  The pieces between
    the occurrences of [sep], in order; a string without [sep] (the empty one
    too) gives the one-element list of that string. *)
Fixpoint Split (s : string) (sep : ascii) : list string :=
  match s with
  | EmptyString => [EmptyString]
  | String c s' =>
      if Ascii.eqb c sep then EmptyString :: Split s' sep
      else match Split s' sep with
           | piece :: pieces => String c piece :: pieces
           | [] => [String c EmptyString]
           end
  end.

(** [strings.Join(elems, sep)] for a separator of one byte. *)
Fixpoint Join (elems : list string) (sep : ascii) : string :=
  match elems with
  | [] => EmptyString
  | [piece] => piece
  | piece :: rest => piece +:+ String sep (Join rest sep)
  end.

End Strings.

(** ** Nested records *)

(** What a [map[string]interface{}] built by the program holds under a key:
    a string, a slice of strings, or another such map. *)
Inductive value : Type :=
  | VStr (s : string)
  | VList (l : list string)
  | VMap (m : gmap string value).

Abbreviation record := (gmap string value).

(** The two run-time panics the flattening code can raise. *)
Inductive panic : Type :=
  | TypeAssertion     (* [x.(map[string]interface{})] on a non-map *)
  | IndexOutOfRange.  (* [headers[i]] with [i >= len(headers)] *)

Inductive result (A : Type) : Type :=
  | Ok (a : A)
  | Panic (e : panic).
Arguments Ok {A} a.
Arguments Panic {A} e.

Definition is_leaf (v : value) : bool :=
  match v with
  | VMap _ => false
  | _ => true
  end.

(** The value found by following the keys [q] from [v] downwards. *)
Fixpoint get_path (v : value) (q : list string) : option value :=
  match q with
  | [] => Some v
  | k :: q' =>
      match v with
      | VMap m =>
          match m !! k with
          | Some v' => get_path v' q'
          | None => None
          end
      | _ => None
      end
  end.

Definition lookup_path (d : record) (q : list string) : option value :=
  get_path (VMap d) q.

(** ** [buildNestedDict] *)

Definition dot : ascii := "."%char.
Definition comma : ascii := ","%char.

Definition is_reserved (path : string) : bool :=
  String.eqb path "payment_methods" || String.eqb path "transfer_methods".

(** The [for i, part := range parts] loop.  [current] is the map the loop
    variable of that name refers to; the map is updated in place in the
    source, and since [current] is then an entry of its parent, the update is
    put back under [part] in the parent here.  [rest = []] is the test
    [i == len(parts)-1]. *)
Fixpoint range_parts (current : record) (parts : list string) (value : string)
    : result record :=
  match parts with
  | [] => Ok current
  | part :: rest =>
      match rest with
      | [] =>
          (* i == len(parts)-1 *)
          if negb (String.eqb value "") then Ok (<[part := VStr value]> current)
          else Ok current
      | _ :: _ =>
          let current1 :=
            match current !! part with
            | None => <[part := VMap ∅]> current
            | Some _ => current
            end in
          match current1 !! part with
          | Some (VMap next) =>
              match range_parts next rest value with
              | Ok next' => Ok (<[part := VMap next']> current1)
              | Panic e => Panic e
              end
          | _ => Panic TypeAssertion
          end
      end
  end.

Definition buildNestedDict (dict : record) (path value : string) : result record :=
  let parts := Strings.Split path dot in
  if is_reserved path then Ok (<[path := VList (Strings.Split value comma)]> dict)
  else range_parts dict parts value.

(** The [for i, value := range row] loop of [validateBeneficiaries]. *)
Fixpoint range_row (payload : record) (headers : list string) (i : nat)
    (row : list string) : result record :=
  match row with
  | [] => Ok payload
  | value :: row' =>
      match headers !! i with
      | None => Panic IndexOutOfRange
      | Some header =>
          match buildNestedDict payload header value with
          | Ok payload' => range_row payload' headers (S i) row'
          | Panic e => Panic e
          end
      end
  end.

(** [payload := make(map[string]interface{})] followed by the loop. *)
Definition flatten_row (headers row : list string) : result record :=
  range_row ∅ headers 0 row.

(** ** The same code over a store of map objects

    A Go map is a reference: [current = current[part].(map[string]interface{})]
    makes [current] point to the object stored under [part], and the later
    [current[part] = ...] updates that object where it lives.  Here the store
    is the list of all map objects made so far, a map object is referred to by
    its index, and [make] appends an empty one. *)

Inductive cell : Type :=
  | CStr (s : string)
  | CList (l : list string)
  | CRef (a : nat).

Abbreviation heap := (list (gmap string cell)).

Module Heap.

(** [make(map[string]interface{})] *)
Definition make (h : heap) : heap * nat := (h ++ [∅], length h).

(** [v, exists := m[k]] *)
Definition load (h : heap) (a : nat) (k : string) : option cell :=
  h !! a ≫= λ m, m !! k.

(** [m[k] = c] *)
Definition store (h : heap) (a : nat) (k : string) (c : cell) : heap :=
  alter (<[k := c]>) a h.

Fixpoint range_parts (h : heap) (current : nat) (parts : list string)
    (value : string) : result heap :=
  match parts with
  | [] => Ok h
  | part :: rest =>
      match rest with
      | [] =>
          if negb (String.eqb value "") then Ok (store h current part (CStr value))
          else Ok h
      | _ :: _ =>
          let h1 :=
            match load h current part with
            | None => let '(h0, fresh) := make h in store h0 current part (CRef fresh)
            | Some _ => h
            end in
          match load h1 current part with
          | Some (CRef next) => range_parts h1 next rest value
          | _ => Panic TypeAssertion
          end
      end
  end.

Definition buildNestedDict (h : heap) (dict : nat) (path value : string)
    : result heap :=
  let parts := Strings.Split path dot in
  if is_reserved path
  then Ok (store h dict path (CList (Strings.Split value comma)))
  else range_parts h dict parts value.

Fixpoint range_row (h : heap) (payload : nat) (headers : list string) (i : nat)
    (row : list string) : result heap :=
  match row with
  | [] => Ok h
  | value :: row' =>
      match headers !! i with
      | None => Panic IndexOutOfRange
      | Some header =>
          match buildNestedDict h payload header value with
          | Ok h' => range_row h' payload headers (S i) row'
          | Panic e => Panic e
          end
      end
  end.

(** The run for one row, in a store [h] that holds whatever was made before;
    the outcome is the store afterwards and the reference to the payload. *)
Definition flatten_row (h : heap) (headers row : list string) : result (heap * nat) :=
  let '(h0, payload) := make h in
  match range_row h0 payload headers 0 row with
  | Ok h' => Ok (h', payload)
  | Panic e => Panic e
  end.

(** What is found by following the keys [q] from a cell. *)
Fixpoint get_path (h : heap) (c : cell) (q : list string) : option cell :=
  match q with
  | [] => Some c
  | k :: q' =>
      match c with
      | CRef a =>
          match load h a k with
          | Some c' => get_path h c' q'
          | None => None
          end
      | _ => None
      end
  end.

(** The map object [b] can be reached from the cell. *)
Definition reach (h : heap) (c : cell) (b : nat) : Prop :=
  ∃ q, get_path h c q = Some (CRef b).

End Heap.

(** What a position of a record shows to a reader of the record: a string, a
    list, or that it is a further record. *)
Inductive shape : Type :=
  | SStr (s : string)
  | SList (l : list string)
  | SMap.

Definition shape_of_cell (c : cell) : shape :=
  match c with
  | CStr s => SStr s
  | CList l => SList l
  | CRef _ => SMap
  end.

Definition shape_of_value (v : value) : shape :=
  match v with
  | VStr s => SStr s
  | VList l => SList l
  | VMap _ => SMap
  end.

(** The record under the cell [c] of the store reads as the value [v]: the
    same strings and lists at the same positions, records at the same
    positions, and nothing elsewhere. *)
Definition reads_as (h : heap) (c : cell) (v : value) : Prop :=
  ∀ q, shape_of_cell <$> Heap.get_path h c q = shape_of_value <$> get_path v q.

(** No map object under the cell is referred to from two places, or lies on
    a cycle. *)
Definition unshared (h : heap) (c : cell) : Prop :=
  ∀ q1 q2 b, Heap.get_path h c q1 = Some (CRef b) →
             Heap.get_path h c q2 = Some (CRef b) → q1 = q2.

(** Every reference under the cell is to an object of the store. *)
Definition in_store (h : heap) (c : cell) : Prop :=
  ∀ b, Heap.reach h c b → (b < length h)%nat.

(** The cell [c] holds a record that reads as [v] and is a tree of objects. *)
Definition represents (h : heap) (c : cell) (v : value) : Prop :=
  reads_as h c v ∧ unshared h c ∧ in_store h c.

(** What a run that started at the cell [c] in the store [h] may have done
    to get to [h']: objects were added, objects of [h] that were not under
    [c] are as they were, and what is under [c] afterwards was under it
    before or is new. *)
Definition grows_below (h : heap) (c : cell) (h' : heap) : Prop :=
  (length h ≤ length h')%nat
  ∧ (∀ b, (b < length h)%nat → ¬ Heap.reach h c b → h' !! b = h !! b)
  ∧ (∀ b, Heap.reach h' c b → Heap.reach h c b ∨ (length h ≤ b)%nat).

(** ** Header paths *)

Definition parts_of (path : string) : list string := Strings.Split path dot.

(** [q] is a proper prefix of [p]: an intermediate position on the way to [p]
    (the top of the record, [[]], included). *)
Definition strict_prefix (q p : list string) : Prop := q `prefix_of` p ∧ q ≠ p.

Definition strict_prefixb (q p : list string) : bool :=
  bool_decide (q `prefix_of` p) && negb (bool_decide (q = p)).

(** Neither path is on the way to the other. *)
Definition diverge (q p : list string) : Prop :=
  ¬ q `prefix_of` p ∧ ¬ p `prefix_of` q.

(** Whether processing the pair stores a leaf: always for the two reserved
    headers, and for the others when the cell is not empty. *)
Definition writes_leaf (path value : string) : bool :=
  is_reserved path || negb (String.eqb value "").

(** No header path is a proper dotted prefix of another header's path. *)
Definition collision_free (headers : list string) : bool :=
  forallb (λ h1, forallb (λ h2,
    negb (strict_prefixb (parts_of h1) (parts_of h2))) headers) headers.

(** No leaf written for an earlier pair sits at an intermediate segment of a
    later header; [written] lists the paths at which leaves were stored so
    far. *)
Fixpoint no_collision_from (written : list (list string)) (headers row : list string)
    : bool :=
  match headers, row with
  | h :: headers', v :: row' =>
      forallb (λ w, negb (strict_prefixb w (parts_of h))) written
      && no_collision_from
           (if writes_leaf h v then parts_of h :: written else written)
           headers' row'
  | _, _ => true
  end.

Definition no_collision (headers row : list string) : bool :=
  no_collision_from [] headers row.

(** The leaf a writing pair stores at the end of its path. *)
Definition leaf_of (path v : string) : value :=
  if is_reserved path then VList (Strings.Split v comma) else VStr v.

(** The header's path is in place in [d]: a leaf at its end when the pair
    wrote one, and a map at each intermediate position. *)
Definition path_settled (d : record) (path v : string) : Prop :=
  (writes_leaf path v = true →
     ∃ x, lookup_path d (parts_of path) = Some x ∧ is_leaf x = true)
  ∧ (∀ q, strict_prefix q (parts_of path) → ∃ n, lookup_path d q = Some (VMap n)).

(** ** Reading the payload back: [getAccountName], [getBankCountry]

    Both follow "beneficiary" and "bank_details" with the two-result form of
    the type assertion, which gives up with the empty string instead of
    panicking (server.go, lines 463-483). *)

Definition getAccountName (payload : record) : string :=
  match payload !! "beneficiary" with
  | Some (VMap beneficiary) =>
      match beneficiary !! "bank_details" with
      | Some (VMap bankDetails) =>
          match bankDetails !! "account_name" with
          | Some (VStr accountName) => accountName
          | _ => ""
          end
      | _ => ""
      end
  | _ => ""
  end.

Definition getBankCountry (payload : record) : string :=
  match payload !! "beneficiary" with
  | Some (VMap beneficiary) =>
      match beneficiary !! "bank_details" with
      | Some (VMap bankDetails) =>
          match bankDetails !! "bank_country_code" with
          | Some (VStr bankCountry) => bankCountry
          | _ => ""
          end
      | _ => ""
      end
  | _ => ""
  end.

(** ** The [token] command: putting the token into the text of [.env]

    The part of [main] between reading and writing the file (server.go,
    lines 126-145), as a function of the text read and the token. *)

Module Env.

Definition newline : ascii := "010"%char.

Definition token_key : string := "AIRWALLEX_TOKEN=".

(** [strings.HasPrefix(s, prefix)] *)
Definition HasPrefix (s prefix : string) : bool := String.prefix prefix s.

(** The loop over the lines: the first line that starts with the key is
    replaced and the loop is left; the flag tells whether there was one. *)
Fixpoint set_token_line (lines : list string) (token : string) : list string * bool :=
  match lines with
  | [] => ([], false)
  | line :: rest =>
      if HasPrefix line token_key then ((token_key +:+ token) :: rest, true)
      else let '(rest', tokenFound) := set_token_line rest token in
           (line :: rest', tokenFound)
  end.

Definition update_env (envContent token : string) : string :=
  let lines := Strings.Split envContent newline in
  let '(lines, tokenFound) := set_token_line lines token in
  let lines := if tokenFound then lines else lines ++ [token_key +:+ token] in
  Strings.Join lines newline.

End Env.

(** ** [validateBeneficiaries]: the bookkeeping of the row loop

    The loop of lines 234-303 and the report loop of lines 319-337.  What
    comes from outside is given with each turn of the loop: what
    [csv.Reader.Read] returned (the record, or nothing when it returned an
    error other than the field count one: malformed CSV text, a failing
    file), and the answer of the validate endpoint to the request sent for
    the record.  Printing is kept as the list of the [Printf] calls made. *)

Module Validate.

Record ValidationError : Type := mkValidationError {
  AccountName : string;
  Row : Z;
  BankCountry : string;
  ErrorSource : string;
  ErrorMessage : string;
  Params : string
}.

(** The answer to one request: the status code and the decoded body, as the
    entries the [range] over it yields, each value as [fmt.Sprintf("%v", _)]
    prints it.  A body that does not decode leaves the map nil: no entries. *)
Record response : Type := mkResponse {
  StatusCode : Z;
  result : list (string * string)
}.

(** What stops the run: a panic of the flattening; [panic(err)] after
    [reader.Read], either for a record whose length is not that of the header
    record (the reader takes the field count of the header record and reports
    [ErrFieldCount]) or for any other error of the reader; or [panic(err)]
    after [client.Do].  [http.NewRequest] gets a constant method and a
    constant URL and returns no error, and the errors of [json.Marshal] and
    of [Decode] are dropped by the code. *)
Inductive failure : Type :=
  | FlattenPanic (e : panic)
  | FieldCount
  | ReadError
  | Transport.

Inductive outcome (A : Type) : Type :=
  | Done (a : A)
  | Failed (f : failure).
Arguments Done {A} a.
Arguments Failed {A} f.

(** [int] arithmetic: 64 bits, two's complement. *)
Definition int_wrap (z : Z) : Z := ((z + 2 ^ 63) mod 2 ^ 64 - 2 ^ 63)%Z.

Record state : Type := mkState {
  successfulResults : list record;
  validationErrors : list ValidationError;
  rowNum : Z
}.

(** [for field, errMsg := range result { validationErrors = append(...) }] *)
Fixpoint range_result (payload : record) (rowNum : Z)
    (validationErrors : list ValidationError) (entries : list (string * string))
    : list ValidationError :=
  match entries with
  | [] => validationErrors
  | (field, errMsg) :: entries' =>
      range_result payload rowNum
        (validationErrors ++
           [mkValidationError (getAccountName payload) rowNum
              (getBankCountry payload) field errMsg ""])
        entries'
  end.

(** The part of the loop body after the answer has arrived. *)
Definition check_response (st : state) (payload : record) (resp : response) : state :=
  if (StatusCode resp =? 401)%Z then
    mkState (successfulResults st)
      (validationErrors st ++
         [mkValidationError (getAccountName payload) (rowNum st)
            (getBankCountry payload) "Unauthorized" "Unauthorized" ""])
      (rowNum st)
  else if (length (result resp) =? 0)%nat then
    mkState (successfulResults st ++ [payload]) (validationErrors st) (rowNum st)
  else
    mkState (successfulResults st)
      (range_result payload (rowNum st) (validationErrors st) (result resp))
      (rowNum st).

(** The row loop; the end of the list is [io.EOF]. *)
Fixpoint range_rows (headers : list string) (st : state)
    (input : list (option (list string) * option response)) : outcome state :=
  match input with
  | [] => Done st
  | (read, answer) :: input' =>
      match read with
      | None => Failed ReadError
      | Some row =>
          if negb (length row =? length headers)%nat then Failed FieldCount
          else
            let st1 := mkState (successfulResults st) (validationErrors st)
                         (int_wrap (rowNum st + 1)) in
            match flatten_row headers row with
            | Panic e => Failed (FlattenPanic e)
            | Ok payload =>
                match answer with
                | None => Failed Transport
                | Some resp =>
                    range_rows headers (check_response st1 payload resp) input'
                end
            end
      end
  end.

(** [successfulResults] and [validationErrors] start nil and [rowNum] at 1. *)
Definition validate_rows (headers : list string)
    (input : list (option (list string) * option response)) : outcome state :=
  range_rows headers (mkState [] [] 1) input.

(** The row's payload goes to [successfulResults]: the status is not 401 and
    the decoded body has no entry. *)
Definition accepted (resp : response) : bool :=
  negb (StatusCode resp =? 401)%Z && (length (result resp) =? 0)%nat.

(** The row numbers that occur in a list of errors. *)
Definition failed_rows (errs : list ValidationError) : gset Z :=
  list_to_set (Row <$> errs).

(** One [Printf] call of the report. *)
Inductive printed : Type :=
  | PRowHeader (row : Z) (accountName bankCountry : string)
  | PErrorSource (source : string)
  | PErrorMessage (message : string)
  | PParameters (params : string).

Definition is_row_header (p : printed) : bool :=
  match p with
  | PRowHeader _ _ _ => true
  | _ => false
  end.

(** The loop over [validationErrors] that prints the details. *)
Fixpoint print_errors (printingRowNumber : Z) (errs : list ValidationError)
    : list printed :=
  match errs with
  | [] => []
  | err :: errs' =>
      let header :=
        if negb (Row err =? printingRowNumber)%Z
        then [PRowHeader (Row err) (AccountName err) (BankCountry err)]
        else [] in
      let printingRowNumber' :=
        if negb (Row err =? printingRowNumber)%Z then Row err else printingRowNumber in
      let details :=
        if String.eqb (ErrorSource err) "message"
           || String.eqb (ErrorSource err) "details"
           || String.eqb (ErrorSource err) "code"
        then [PErrorSource (ErrorSource err); PErrorMessage (ErrorMessage err)]
             ++ (if negb (String.eqb (Params err) "")
                 then [PParameters (Params err)] else [])
        else [] in
      header ++ details ++ print_errors printingRowNumber' errs'
  end.

(** [var printingRowNumber int] starts at zero. *)
Definition print_report (errs : list ValidationError) : list printed :=
  print_errors 0 errs.

End Validate.

(** ** [createBeneficiaries]: the bookkeeping of the loop over the results

    The loop of lines 385-433.  A validated result is what [json.Unmarshal]
    put into [Successful.Results]; with it comes the answer of the create
    endpoint to the request sent for it: the status code and the decoded
    body.  The decoded JSON is taken over the values the validate command
    writes: strings, lists of strings and objects of these. *)

Module Create.

Record created : Type := mkCreated {
  Name : string;
  Row : Z;
  ID : string
}.

Record create_error : Type := mkCreateError {
  ErrName : string;
  Data : gmap string value
}.

Record BeneficiaryCreateResult : Type := mkResult {
  SuccessfulCount : Z;
  SuccessfulResults : list created;
  ErrorsCount : Z;
  ErrorsResults : list create_error
}.

Record response : Type := mkResponse {
  StatusCode : Z;
  createResp : gmap string value
}.

(** What stops the run: a failed type assertion ([result] is not a map, or
    there is no string under "beneficiary_id"), or [panic(err)] after
    [client.Do]. *)
Inductive failure : Type :=
  | AssertionPanic
  | Transport.

Inductive outcome (A : Type) : Type :=
  | Done (a : A)
  | Failed (f : failure).
Arguments Done {A} a.
Arguments Failed {A} f.

(** The loop; [i] is the index of the result at the head of the input. *)
Fixpoint range_results (createResults : BeneficiaryCreateResult) (i : nat)
    (input : list (value * option response)) : outcome BeneficiaryCreateResult :=
  match input with
  | [] => Done createResults
  | (result, answer) :: input' =>
      match answer with
      | None => Failed Transport
      | Some resp =>
          if (StatusCode resp =? 201)%Z then
            let count := Validate.int_wrap (SuccessfulCount createResults + 1) in
            match result with
            | VMap payload =>
                match createResp resp !! "beneficiary_id" with
                | Some (VStr id) =>
                    range_results
                      (mkResult count
                         (SuccessfulResults createResults
                          ++ [mkCreated (getAccountName payload) (Z.of_nat i + 1) id])
                         (ErrorsCount createResults)
                         (ErrorsResults createResults))
                      (S i) input'
                | _ => Failed AssertionPanic
                end
            | _ => Failed AssertionPanic
            end
          else
            let count := Validate.int_wrap (ErrorsCount createResults + 1) in
            match result with
            | VMap payload =>
                range_results
                  (mkResult (SuccessfulCount createResults)
                     (SuccessfulResults createResults)
                     count
                     (ErrorsResults createResults
                      ++ [mkCreateError (getAccountName payload) (createResp resp)]))
                  (S i) input'
            | _ => Failed AssertionPanic
            end
      end
  end.

(** [createResults := BeneficiaryCreateResult{}] and the loop. *)
Definition create_results (input : list (value * option response))
    : outcome BeneficiaryCreateResult :=
  range_results (mkResult 0 [] 0 []) 0 input.

(** The answer says the beneficiary was created. *)
Definition is_created (resp : response) : bool := (StatusCode resp =? 201)%Z.

End Create.

(** ** Composing steps *)

(** One step, then the next on its outcome; a panic ends the run. *)
Definition and_then {A B : Type} (r : result A) (f : A → result B) : result B :=
  match r with
  | Ok a => f a
  | Panic e => Panic e
  end.

(** The step [op] looks at the entry under [k] only and changes that entry
    only (or panics on the type assertion). *)
Definition acts_on_key (k : string) (op : record → result record) : Prop :=
  ∃ f : option value → option (option value),
    ∀ m, op m = match f (m !! k) with
                | Some o => Ok (partial_alter (λ _, o) k m)
                | None => Panic TypeAssertion
                end.

(** * Facts about [strings.Split] *)

Section split_facts.
Import Strings.
Variable sep : ascii.

Lemma Split_nonempty s : Split s sep ≠ [].
Proof.
  induction s as [|c s IH]; simpl; [done|].
  destruct (Ascii.eqb c sep); [done|].
  by destruct (Split s sep).
Qed.

Lemma Split_length s : 0 < length (Split s sep).
Proof.
  pose proof (Split_nonempty s). destruct (Split s sep); simpl; [done | lia].
Qed.

(** Joining the pieces with the separator gives the string back: [Split]
    drops nothing and trims nothing. *)
Lemma Join_Split s : Join (Split s sep) sep = s.
Proof.
  induction s as [|c s IH]; simpl; [done|].
  destruct (Ascii.eqb_spec c sep) as [->|Hne].
  - pose proof (Split_nonempty s) as Hs.
    destruct (Split s sep) as [|piece pieces] eqn:E; [done|].
    simpl in *. by rewrite IH.
  - pose proof (Split_nonempty s) as Hs.
    destruct (Split s sep) as [|piece pieces] eqn:E; [done|].
    destruct pieces as [|piece' pieces']; simpl in *; by rewrite <- IH.
Qed.

Lemma Split_inj s1 s2 : Split s1 sep = Split s2 sep → s1 = s2.
Proof.
  intros E. rewrite <- (Join_Split s1), <- (Join_Split s2). by rewrite E.
Qed.

(** A string without the separator is its own single piece. *)
Lemma Split_no_sep s : Index s sep = None → Split s sep = [s].
Proof.
  induction s as [|c s IH]; simpl; [done|].
  destruct (Ascii.eqb c sep); [done|].
  destruct (Index s sep); [done|]. intros _. by rewrite IH.
Qed.

(** The first piece ends at the first separator and the rest of the string
    is split in turn, which is how [genSplit] proceeds. *)
Lemma Split_at_Index s m :
  Index s sep = Some m →
  Split s sep = substring 0 m s :: Split (substring (S m) (String.length s - S m) s) sep.
Proof.
  revert m. induction s as [|c s IH]; intros m; simpl; [done|].
  destruct (Ascii.eqb c sep).
  - intros [= <-]. simpl. f_equal. f_equal.
    rewrite Nat.sub_0_r. clear. induction s as [|c s IH]; simpl; [done|].
    by rewrite <- IH.
  - destruct (Index s sep) as [m'|]; [|done]. intros [= <-].
    rewrite (IH m' eq_refl). simpl. done.
Qed.
End split_facts.

(** * More on [strings.Split] and [strings.Join] *)

Lemma string_append_assoc (a b c : string) : (a +:+ b) +:+ c = a +:+ (b +:+ c).
Proof.
  induction a as [|x a IH]; [done|].
  change (String x ((a +:+ b) +:+ c) = String x (a +:+ (b +:+ c))).
  by rewrite IH.
Qed.

Lemma Split_pieces_no_sep sep s :
  Forall (λ piece, Strings.Index piece sep = None) (Strings.Split s sep).
Proof.
  induction s as [|c s IH]; simpl; [by repeat constructor|].
  destruct (Ascii.eqb c sep) eqn:E; [by constructor|].
  destruct (Strings.Split s sep) as [|piece pieces].
  - repeat constructor. simpl. by rewrite E.
  - inversion IH as [|? ? Hpiece Hpieces]; subst. constructor; [|done].
    simpl. by rewrite E, Hpiece.
Qed.

Lemma Split_append_sep sep x y :
  Strings.Index x sep = None →
  Strings.Split (x +:+ String sep y) sep = x :: Strings.Split y sep.
Proof.
  induction x as [|c x IH]; simpl.
  - intros _. by rewrite Ascii.eqb_refl.
  - destruct (Ascii.eqb c sep); [done|].
    destruct (Strings.Index x sep); [done|]. intros _. by rewrite IH.
Qed.

(** Splitting what was joined gives the pieces back, when no piece holds the
    separator. *)
Lemma Split_Join sep l :
  l ≠ [] → Forall (λ piece, Strings.Index piece sep = None) l →
  Strings.Split (Strings.Join l sep) sep = l.
Proof.
  induction l as [|x l IH]; [done|]. intros _ Hl.
  inversion Hl as [|? ? Hx Hrest]; subst.
  destruct l as [|y l].
  - simpl. by apply Split_no_sep.
  - change (Strings.Join (x :: y :: l) sep)
      with (x +:+ String sep (Strings.Join (y :: l) sep)).
    rewrite Split_append_sep by done. by rewrite IH.
Qed.

Lemma Join_snoc sep l x :
  l ≠ [] → Strings.Join (l ++ [x]) sep = Strings.Join l sep +:+ String sep x.
Proof.
  induction l as [|y l IH]; [done|]. intros _.
  destruct l as [|z l]; [done|].
  change (Strings.Join ((y :: z :: l) ++ [x]) sep)
    with (y +:+ String sep (Strings.Join ((z :: l) ++ [x]) sep)).
  rewrite IH by done.
  change (Strings.Join (y :: z :: l) sep)
    with (y +:+ String sep (Strings.Join (z :: l) sep)).
  by rewrite string_append_assoc.
Qed.

Lemma Split_app_sep sep (a b : string) :
  Strings.Split (a +:+ String sep b) sep = Strings.Split a sep ++ Strings.Split b sep.
Proof.
  induction a as [|c a IH].
  - change (Strings.Split (String sep b) sep = [""] ++ Strings.Split b sep).
    simpl. by rewrite Ascii.eqb_refl.
  - change (Strings.Split (String c (a +:+ String sep b)) sep
            = Strings.Split (String c a) sep ++ Strings.Split b sep).
    simpl. destruct (Ascii.eqb c sep); [by rewrite IH|]. rewrite IH.
    pose proof (Split_nonempty sep a) as Hne.
    by destruct (Strings.Split a sep).
Qed.

Lemma Join_app sep l1 l2 :
  l1 ≠ [] → l2 ≠ [] →
  Strings.Join (l1 ++ l2) sep = Strings.Join l1 sep +:+ String sep (Strings.Join l2 sep).
Proof.
  intros H1 H2. induction l1 as [|x l1 IH]; [done|].
  destruct l1 as [|y l1].
  - destruct l2; done.
  - change (Strings.Join ((x :: y :: l1) ++ l2) sep)
      with (x +:+ String sep (Strings.Join ((y :: l1) ++ l2) sep)).
    rewrite IH by done.
    change (Strings.Join (x :: y :: l1) sep)
      with (x +:+ String sep (Strings.Join (y :: l1) sep)).
    by rewrite string_append_assoc.
Qed.

(** * Paths in a record *)

Lemma get_path_app v q r :
  get_path v (q ++ r) = get_path v q ≫= λ v', get_path v' r.
Proof.
  revert v. induction q as [|k q IH]; intros v; simpl; [done|].
  destruct v as [| |m]; try done. destruct (m !! k); [apply IH | done].
Qed.

Lemma get_path_leaf v q x : is_leaf v = true → get_path v q = Some x → q = [] ∧ x = v.
Proof. destruct q, v; simpl; intros; simplify_eq; done. Qed.

Lemma lookup_path_nil d : lookup_path d [] = Some (VMap d).
Proof. done. Qed.

Lemma lookup_path_cons d k q :
  lookup_path d (k :: q) = d !! k ≫= λ v, get_path v q.
Proof. unfold lookup_path. simpl. by destruct (d !! k). Qed.

Lemma lookup_path_empty q : q ≠ [] → lookup_path ∅ q = None.
Proof. destruct q; [done|]. intros _. by rewrite lookup_path_cons, lookup_empty. Qed.

Lemma strict_prefixb_spec q p : strict_prefixb q p = true ↔ strict_prefix q p.
Proof.
  unfold strict_prefixb, strict_prefix.
  rewrite andb_true_iff, negb_true_iff, bool_decide_eq_true, bool_decide_eq_false.
  done.
Qed.

Lemma strict_prefix_cons k q p : strict_prefix (k :: q) (k :: p) ↔ strict_prefix q p.
Proof.
  unfold strict_prefix. split; intros [Hp Hne]; split.
  - by apply prefix_cons_inv_2 in Hp.
  - congruence.
  - by apply prefix_cons.
  - congruence.
Qed.

Lemma strict_prefix_nil p : strict_prefix [] p ↔ p ≠ [].
Proof.
  unfold strict_prefix. split; [intros [_ ?]; done|].
  intros; split; [apply prefix_nil | done].
Qed.

Lemma strict_prefix_cons_inv q k p :
  strict_prefix q (k :: p) → q = [] ∨ ∃ q', q = k :: q' ∧ strict_prefix q' p.
Proof.
  destruct q as [|k' q']; [by left|]. intros [Hp Hne]. right.
  pose proof (prefix_cons_inv_1 _ _ _ _ Hp) as ->.
  exists q'. split; [done|]. apply (strict_prefix_cons k). by split.
Qed.

(** Two paths are on the same branch, one before the other, or they part. *)
Lemma path_trichotomy (q p : list string) :
  q = p ∨ strict_prefix q p ∨ strict_prefix p q ∨ diverge q p.
Proof.
  unfold strict_prefix, diverge.
  destruct (decide (q = p)); [by left|]. right.
  destruct (decide (q `prefix_of` p)); [by left|]. right.
  destruct (decide (p `prefix_of` q)); [left; split; [done | congruence] | by right].
Qed.

Lemma diverge_cons_inv k q k' p :
  diverge (k :: q) (k' :: p) → k ≠ k' ∨ (k = k' ∧ diverge q p).
Proof.
  intros [H1 H2]. destruct (decide (k = k')) as [->|]; [right | by left].
  split; [done|]. split; intros Hp; [apply H1 | apply H2]; by apply prefix_cons.
Qed.

Lemma diverge_nonempty q p : diverge q p → q ≠ [] ∧ p ≠ [].
Proof.
  intros [H1 H2]. split; intros ->; [apply H1 | apply H2]; apply prefix_nil.
Qed.

(** * The loop over the segments of a path *)

Lemma range_parts_last m part v :
  range_parts m [part] v
  = if negb (String.eqb v "") then Ok (<[part := VStr v]> m) else Ok m.
Proof. reflexivity. Qed.

Lemma range_parts_unfold m part p2 rest v :
  range_parts m (part :: p2 :: rest) v
  = let current1 :=
      match m !! part with
      | None => <[part := VMap ∅]> m
      | Some _ => m
      end in
    match current1 !! part with
    | Some (VMap next) =>
        match range_parts next (p2 :: rest) v with
        | Ok next' => Ok (<[part := VMap next']> current1)
        | Panic e => Panic e
        end
    | _ => Panic TypeAssertion
    end.
Proof. reflexivity. Qed.

(** One step down: the entry under [part] is created empty when absent, must
    be a map, and receives the outcome of the rest of the walk. *)
Lemma range_parts_cons m part rest v :
  rest ≠ [] →
  range_parts m (part :: rest) v
  = match m !! part with
    | None =>
        match range_parts ∅ rest v with
        | Ok n' => Ok (<[part := VMap n']> m)
        | Panic e => Panic e
        end
    | Some (VMap n) =>
        match range_parts n rest v with
        | Ok n' => Ok (<[part := VMap n']> m)
        | Panic e => Panic e
        end
    | Some _ => Panic TypeAssertion
    end.
Proof.
  destruct rest as [|p2 rest]; [done|]. intros _.
  rewrite range_parts_unfold. cbv zeta.
  destruct (m !! part) as [[s|l|n]|] eqn:E; rewrite ?E; try done.
  rewrite lookup_insert_eq.
  destruct (range_parts ∅ (p2 :: rest) v); [|done].
  by rewrite insert_insert_eq.
Qed.

Lemma range_parts_cons_inv m part rest v m' :
  rest ≠ [] → range_parts m (part :: rest) v = Ok m' →
  ∃ n n', (m !! part = None ∧ n = ∅ ∨ m !! part = Some (VMap n))
          ∧ range_parts n rest v = Ok n'
          ∧ m' = <[part := VMap n']> m.
Proof.
  intros Hrest. rewrite range_parts_cons by done.
  destruct (m !! part) as [[s|l|n]|] eqn:E; try done.
  - destruct (range_parts n rest v) as [n'|] eqn:E'; [|done].
    intros [= <-]. exists n, n'. auto.
  - destruct (range_parts ∅ rest v) as [n'|] eqn:E'; [|done].
    intros [= <-]. exists ∅, n'. auto.
Qed.

(** The step changes no top-level key but the first segment. *)
Lemma range_parts_frame m part rest v m' k :
  range_parts m (part :: rest) v = Ok m' → k ≠ part → m' !! k = m !! k.
Proof.
  destruct rest as [|p2 rest].
  - rewrite range_parts_last. destruct (negb _); intros [= <-] Hk; [|done].
    by rewrite lookup_insert_ne.
  - intros H Hk. apply range_parts_cons_inv in H as (n & n' & _ & _ & ->); [|done].
    by rewrite lookup_insert_ne.
Qed.

(** Nothing off the walked path changes, at any depth. *)
Lemma range_parts_frame_path parts v : ∀ m m' q,
  range_parts m parts v = Ok m' → diverge q parts →
  lookup_path m' q = lookup_path m q.
Proof.
  induction parts as [|part rest IH]; intros m m' q H Hd.
  { by apply diverge_nonempty in Hd as [_ ?]. }
  destruct q as [|k q]; [by apply diverge_nonempty in Hd as [? _]|].
  rewrite !lookup_path_cons.
  apply diverge_cons_inv in Hd as [Hk|[-> Hd]].
  { by rewrite (range_parts_frame _ _ _ _ _ _ H Hk). }
  pose proof (diverge_nonempty _ _ Hd) as [Hq Hrest].
  apply range_parts_cons_inv in H as (n & n' & Hn & H & ->); [|done].
  rewrite lookup_insert_eq. simpl.
  change (get_path (VMap n') q) with (lookup_path n' q).
  rewrite (IH _ _ _ H Hd).
  destruct Hn as [[-> ->]| ->]; simpl; [|done].
  by apply lookup_path_empty.
Qed.

(** A non-empty cell ends up as a string leaf at the end of the path. *)
Lemma range_parts_leaf parts v : ∀ m m',
  parts ≠ [] → v ≠ "" → range_parts m parts v = Ok m' →
  lookup_path m' parts = Some (VStr v).
Proof.
  induction parts as [|part rest IH]; intros m m' Hp Hv H; [done|].
  rewrite lookup_path_cons.
  destruct (decide (rest = [])) as [->|Hrest].
  - rewrite range_parts_last in H.
    apply String.eqb_neq in Hv. rewrite Hv in H. simpl in H.
    injection H as <-. by rewrite lookup_insert_eq.
  - apply range_parts_cons_inv in H as (n & n' & _ & H & ->); [|done].
    rewrite lookup_insert_eq. simpl. by apply (IH n).
Qed.

(** An empty cell leaves whatever is at the end of the path, and below it,
    as it was. *)
Lemma range_parts_empty_cell parts : ∀ m m' r,
  parts ≠ [] → range_parts m parts "" = Ok m' →
  lookup_path m' (parts ++ r) = lookup_path m (parts ++ r).
Proof.
  induction parts as [|part rest IH]; intros m m' r Hp H; [done|].
  destruct (decide (rest = [])) as [->|Hrest].
  - rewrite range_parts_last in H. simpl in H. by injection H as <-.
  - apply range_parts_cons_inv in H as (n & n' & Hn & H & ->); [|done].
    simpl. rewrite !lookup_path_cons, lookup_insert_eq. simpl.
    change (get_path (VMap n') (rest ++ r)) with (lookup_path n' (rest ++ r)).
    rewrite (IH _ _ r Hrest H).
    destruct Hn as [[-> ->]| ->]; simpl; [|done].
    apply lookup_path_empty. by destruct rest.
Qed.

(** Every intermediate position of the walked path holds a map afterwards. *)
Lemma range_parts_prefix_map parts v : ∀ m m' q,
  range_parts m parts v = Ok m' → strict_prefix q parts →
  ∃ n, lookup_path m' q = Some (VMap n).
Proof.
  induction parts as [|part rest IH]; intros m m' q H Hq.
  { destruct Hq as [Hq Hne]. apply prefix_nil_inv in Hq. done. }
  apply strict_prefix_cons_inv in Hq as [->|(q' & -> & Hq)]; [by eexists|].
  assert (rest ≠ []) as Hrest.
  { intros ->. destruct Hq as [Hq Hne]. by apply prefix_nil_inv in Hq. }
  apply range_parts_cons_inv in H as (n & n' & _ & H & ->); [|done].
  rewrite lookup_path_cons, lookup_insert_eq. simpl. by apply (IH n).
Qed.

(** The walk succeeds as soon as no leaf sits at an intermediate position. *)
Lemma range_parts_total parts v : ∀ m,
  (∀ q x, strict_prefix q parts → lookup_path m q = Some x → is_leaf x = false) →
  ∃ m', range_parts m parts v = Ok m'.
Proof.
  induction parts as [|part rest IH]; intros m Hm; [by eexists|].
  destruct (decide (rest = [])) as [->|Hrest].
  { rewrite range_parts_last. destruct (negb _); by eexists. }
  rewrite range_parts_cons by done.
  assert (∀ n, (m !! part = None ∧ n = ∅ ∨ m !! part = Some (VMap n)) →
            ∃ n', range_parts n rest v = Ok n') as Hsub.
  { intros n Hn. apply IH. intros q x Hq Hx.
    destruct Hn as [[_ ->]| Hn].
    - destruct q; [by injection Hx as <-|]. by rewrite lookup_path_empty in Hx.
    - apply (Hm (part :: q)); [by apply strict_prefix_cons|].
      by rewrite lookup_path_cons, Hn. }
  destruct (m !! part) as [[s|l|n]|] eqn:E.
  - specialize (Hm [part] (VStr s)). rewrite lookup_path_cons, E in Hm.
    discriminate Hm; [|done]. apply (strict_prefix_cons part []), strict_prefix_nil. done.
  - specialize (Hm [part] (VList l)). rewrite lookup_path_cons, E in Hm.
    discriminate Hm; [|done]. apply (strict_prefix_cons part []), strict_prefix_nil. done.
  - destruct (Hsub n) as [n' ->]; [auto|]. by eexists.
  - destruct (Hsub ∅) as [n' ->]; [auto|]. by eexists.
Qed.

(** The walk panics when a leaf sits at an intermediate position. *)
Lemma range_parts_panic parts v : ∀ m q x,
  strict_prefix q parts → lookup_path m q = Some x → is_leaf x = true →
  range_parts m parts v = Panic TypeAssertion.
Proof.
  induction parts as [|part rest IH]; intros m q x Hq Hx Hl.
  { destruct Hq as [Hq Hne]. by apply prefix_nil_inv in Hq. }
  apply strict_prefix_cons_inv in Hq as [->|(q' & -> & Hq)].
  { by injection Hx as <-. }
  assert (rest ≠ []) as Hrest.
  { intros ->. destruct Hq as [Hq Hne]. by apply prefix_nil_inv in Hq. }
  rewrite range_parts_cons by done. rewrite lookup_path_cons in Hx.
  destruct (m !! part) as [[s|l|n]|] eqn:E; try done.
  simpl in Hx. by rewrite (IH n q' x).
Qed.

(** * One (header, value) pair *)

Lemma is_reserved_spec path :
  is_reserved path = true ↔ path = "payment_methods" ∨ path = "transfer_methods".
Proof.
  unfold is_reserved. rewrite orb_true_iff, !String.eqb_eq. done.
Qed.

Lemma reserved_parts path : is_reserved path = true → parts_of path = [path].
Proof. intros [-> | ->]%is_reserved_spec; reflexivity. Qed.

Lemma buildNestedDict_reserved d path v :
  is_reserved path = true →
  buildNestedDict d path v = Ok (<[path := VList (Strings.Split v comma)]> d).
Proof. unfold buildNestedDict. by intros ->. Qed.

Lemma buildNestedDict_plain d path v :
  is_reserved path = false →
  buildNestedDict d path v = range_parts d (parts_of path) v.
Proof. unfold buildNestedDict. by intros ->. Qed.

Lemma parts_of_nonempty path : parts_of path ≠ [].
Proof. apply Split_nonempty. Qed.

Lemma parts_of_inj p1 p2 : parts_of p1 = parts_of p2 → p1 = p2.
Proof. apply Split_inj. Qed.

Lemma writes_leaf_false path v :
  writes_leaf path v = false ↔ is_reserved path = false ∧ v = "".
Proof.
  unfold writes_leaf. rewrite orb_false_iff, negb_false_iff, String.eqb_eq. done.
Qed.

(** Nothing off the header's path changes. *)
Lemma buildNestedDict_frame_path d path v d' q :
  buildNestedDict d path v = Ok d' → diverge q (parts_of path) →
  lookup_path d' q = lookup_path d q.
Proof.
  destruct (is_reserved path) eqn:R.
  - rewrite buildNestedDict_reserved, (reserved_parts _ R) by done.
    intros [= <-] Hd. destruct q as [|k q]; [by apply diverge_nonempty in Hd as [? _]|].
    apply diverge_cons_inv in Hd as [Hk|[_ Hd]].
    + by rewrite !lookup_path_cons, lookup_insert_ne.
    + by apply diverge_nonempty in Hd as [_ ?].
  - rewrite buildNestedDict_plain by done. apply range_parts_frame_path.
Qed.

(** A writing pair leaves its leaf at the end of the path. *)
Lemma buildNestedDict_written d path v d' :
  writes_leaf path v = true → buildNestedDict d path v = Ok d' →
  lookup_path d' (parts_of path) = Some (leaf_of path v).
Proof.
  unfold writes_leaf, leaf_of. destruct (is_reserved path) eqn:R; simpl.
  - intros _. rewrite buildNestedDict_reserved, (reserved_parts _ R) by done.
    intros [= <-]. by rewrite lookup_path_cons, lookup_insert_eq.
  - intros Hv%negb_true_iff%String.eqb_neq. rewrite buildNestedDict_plain by done.
    apply range_parts_leaf; [apply parts_of_nonempty | done].
Qed.

(** A pair that writes nothing leaves the end of the path, and what is below
    it, as it was. *)
Lemma buildNestedDict_not_written d path v d' r :
  writes_leaf path v = false → buildNestedDict d path v = Ok d' →
  lookup_path d' (parts_of path ++ r) = lookup_path d (parts_of path ++ r).
Proof.
  intros [R ->]%writes_leaf_false. rewrite buildNestedDict_plain by done.
  apply range_parts_empty_cell, parts_of_nonempty.
Qed.

Lemma buildNestedDict_prefix_map d path v d' q :
  buildNestedDict d path v = Ok d' → strict_prefix q (parts_of path) →
  ∃ n, lookup_path d' q = Some (VMap n).
Proof.
  destruct (is_reserved path) eqn:R.
  - rewrite buildNestedDict_reserved, (reserved_parts _ R) by done.
    intros [= <-] Hq. apply strict_prefix_cons_inv in Hq as [->|(q' & -> & Hq)].
    + by eexists.
    + destruct Hq as [Hq Hne]. by apply prefix_nil_inv in Hq.
  - rewrite buildNestedDict_plain by done. apply range_parts_prefix_map.
Qed.

Lemma buildNestedDict_total d path v :
  (∀ q x, strict_prefix q (parts_of path) → lookup_path d q = Some x →
          is_leaf x = false) →
  ∃ d', buildNestedDict d path v = Ok d'.
Proof.
  destruct (is_reserved path) eqn:R.
  - rewrite buildNestedDict_reserved by done. by eexists.
  - rewrite buildNestedDict_plain by done. apply range_parts_total.
Qed.

(** Where the leaves of the updated record come from: they were there
    before, or the pair wrote one at the end of its path. *)
Lemma buildNestedDict_leaves d path v d' q x :
  buildNestedDict d path v = Ok d' →
  lookup_path d' q = Some x → is_leaf x = true →
  lookup_path d q = Some x ∨ (q = parts_of path ∧ writes_leaf path v = true).
Proof.
  intros H Hx Hl.
  destruct (path_trichotomy q (parts_of path)) as [->|[Hq|[[[r ->] Hne]|Hd]]].
  - destruct (writes_leaf path v) eqn:W; [by right | left].
    pose proof (buildNestedDict_not_written _ _ _ _ [] W H) as E.
    rewrite app_nil_r in E. by rewrite <- E.
  - destruct (buildNestedDict_prefix_map _ _ _ _ _ H Hq) as [n Hn].
    rewrite Hn in Hx. injection Hx as <-. done.
  - destruct (writes_leaf path v) eqn:W.
    + pose proof (buildNestedDict_written _ _ _ _ W H) as E.
      unfold lookup_path in Hx. rewrite get_path_app in Hx.
      unfold lookup_path in E. rewrite E in Hx. simpl in Hx.
      apply get_path_leaf in Hx as [-> _].
      * by rewrite app_nil_r in Hne.
      * unfold leaf_of. by destruct (is_reserved path).
    + left. by rewrite <- (buildNestedDict_not_written _ _ _ _ r W H).
  - left. by rewrite <- (buildNestedDict_frame_path _ _ _ _ _ H Hd).
Qed.

Lemma strict_prefix_trans (q p r : list string) :
  strict_prefix q p → strict_prefix p r → strict_prefix q r.
Proof.
  intros [[a ->] Ha] [[b ->] Hb]. split.
  - exists (a ++ b). by rewrite app_assoc.
  - intros E. rewrite <- app_assoc in E.
    rewrite <- (app_nil_r q) in E at 1. apply app_inv_head in E.
    symmetry in E. apply app_eq_nil in E as [-> _]. by rewrite app_nil_r in Ha.
Qed.

(** A pair for another header, neither path on the way to the other, leaves
    the end of the path alone; so does a pair for the same header that writes
    nothing. *)
Lemma buildNestedDict_keeps_leaf d h v d' p :
  buildNestedDict d h v = Ok d' →
  ¬ strict_prefix (parts_of h) (parts_of p) →
  ¬ strict_prefix (parts_of p) (parts_of h) →
  (h = p → writes_leaf h v = false) →
  lookup_path d' (parts_of p) = lookup_path d (parts_of p).
Proof.
  intros H N1 N2 Hsame.
  destruct (path_trichotomy (parts_of p) (parts_of h)) as [E|[?|[?|Hd]]]; try done.
  - apply parts_of_inj in E as ->.
    pose proof (buildNestedDict_not_written _ _ _ _ [] (Hsame eq_refl) H) as E.
    by rewrite app_nil_r in E.
  - by apply (buildNestedDict_frame_path _ _ _ _ _ H).
Qed.

Lemma buildNestedDict_keeps_maps d h v d' p :
  buildNestedDict d h v = Ok d' →
  ¬ strict_prefix (parts_of h) (parts_of p) →
  (∀ q, strict_prefix q (parts_of p) → ∃ n, lookup_path d q = Some (VMap n)) →
  ∀ q, strict_prefix q (parts_of p) → ∃ n, lookup_path d' q = Some (VMap n).
Proof.
  intros H N Hd q Hq.
  destruct (path_trichotomy q (parts_of h)) as [->|[Hqh|[Hhq|Hdiv]]]; [done| | |].
  - by apply (buildNestedDict_prefix_map _ _ _ _ _ H).
  - destruct N. by apply (strict_prefix_trans _ q).
  - rewrite (buildNestedDict_frame_path _ _ _ _ _ H Hdiv). by apply Hd.
Qed.

(** * The loop over the cells of a row *)

Lemma collision_free_spec headers :
  collision_free headers = true ↔
  ∀ h1 h2, h1 ∈ headers → h2 ∈ headers →
           ¬ strict_prefix (parts_of h1) (parts_of h2).
Proof.
  unfold collision_free. rewrite forallb_forall. split.
  - intros H h1 h2 H1%list_elem_of_In H2%list_elem_of_In.
    specialize (H h1 H1). rewrite forallb_forall in H. specialize (H h2 H2).
    apply negb_true_iff in H. rewrite <- strict_prefixb_spec. by rewrite H.
  - intros H h1 H1%list_elem_of_In. rewrite forallb_forall.
    intros h2 H2%list_elem_of_In. apply negb_true_iff.
    destruct (strict_prefixb _ _) eqn:E; [|done].
    apply strict_prefixb_spec in E. by destruct (H h1 h2).
Qed.

Lemma range_row_cons payload headers i v row header :
  headers !! i = Some header →
  range_row payload headers i (v :: row)
  = match buildNestedDict payload header v with
    | Ok payload' => range_row payload' headers (S i) row
    | Panic e => Panic e
    end.
Proof. simpl. by intros ->. Qed.

Lemma range_row_cons_inv payload headers i v row r :
  range_row payload headers i (v :: row) = Ok r →
  ∃ header payload', headers !! i = Some header
    ∧ buildNestedDict payload header v = Ok payload'
    ∧ range_row payload' headers (S i) row = Ok r.
Proof.
  simpl. destruct (headers !! i) as [header|]; [|done].
  destruct (buildNestedDict payload header v) as [payload'|] eqn:E; [|done].
  intros H. by exists header, payload'.
Qed.

Section collision_free_rows.
Variable headers : list string.
Hypothesis Hfree : collision_free headers = true.

Lemma headers_no_strict_prefix i j h1 h2 :
  headers !! i = Some h1 → headers !! j = Some h2 →
  ¬ strict_prefix (parts_of h1) (parts_of h2).
Proof.
  intros H1%list_elem_of_lookup_2 H2%list_elem_of_lookup_2.
  by apply (proj1 (collision_free_spec headers) Hfree).
Qed.

(** A leaf at the end of a header's path stays while no later pair for that
    header writes. *)
Lemma range_row_keeps_leaf row : ∀ payload i r n p x,
  headers !! n = Some p →
  range_row payload headers i row = Ok r →
  lookup_path payload (parts_of p) = Some x →
  (∀ j v, headers !! (i + j) = Some p → row !! j = Some v →
          writes_leaf p v = false) →
  lookup_path r (parts_of p) = Some x.
Proof.
  induction row as [|v row IH]; intros payload i r n p x Hp H Hx Hlater.
  { by injection H as <-. }
  apply range_row_cons_inv in H as (h & payload' & Hh & Hstep & H).
  apply (IH payload' (S i) r n p x); [done..| |].
  - rewrite (buildNestedDict_keeps_leaf _ _ _ _ _ Hstep); [done|..].
    + by apply (headers_no_strict_prefix i n).
    + by apply (headers_no_strict_prefix n i).
    + intros ->. apply (Hlater 0); [by rewrite Nat.add_0_r | done].
  - intros j v' Hj Hv'. apply (Hlater (S j) v'); [|done].
    by rewrite Nat.add_succ_r.
Qed.

(** Maps at the intermediate positions of a header's path stay maps. *)
Lemma range_row_keeps_maps row : ∀ payload i r n p,
  headers !! n = Some p →
  range_row payload headers i row = Ok r →
  (∀ q, strict_prefix q (parts_of p) → ∃ m, lookup_path payload q = Some (VMap m)) →
  ∀ q, strict_prefix q (parts_of p) → ∃ m, lookup_path r q = Some (VMap m).
Proof.
  induction row as [|v row IH]; intros payload i r n p Hp H Hmaps.
  { by injection H as <-. }
  apply range_row_cons_inv in H as (h & payload' & Hh & Hstep & H).
  apply (IH payload' (S i) r n p); [done..|].
  apply (buildNestedDict_keeps_maps _ _ _ _ _ Hstep); [|done].
  by apply (headers_no_strict_prefix i n).
Qed.

(** Last write wins: the leaf at the end of a header's path is the one of the
    last pair for that header that wrote. *)
Lemma range_row_last_write row : ∀ payload i r j p v,
  range_row payload headers i row = Ok r →
  headers !! (i + j) = Some p → row !! j = Some v →
  writes_leaf p v = true →
  (∀ k v', j < k → headers !! (i + k) = Some p → row !! k = Some v' →
           writes_leaf p v' = false) →
  lookup_path r (parts_of p) = Some (leaf_of p v).
Proof.
  induction row as [|v0 row IH]; intros payload i r j p v H Hp Hv Hw Hlater; [done|].
  apply range_row_cons_inv in H as (h & payload' & Hh & Hstep & H).
  destruct j as [|j].
  - rewrite Nat.add_0_r, Hh in Hp. injection Hp as ->.
    simpl in Hv. injection Hv as ->.
    apply (range_row_keeps_leaf row payload' (S i) r i p); [done..| |].
    + by apply (buildNestedDict_written payload).
    + intros j v' Hj Hv'. apply (Hlater (S j) v'); [lia| |done].
      by rewrite Nat.add_succ_r.
  - apply (IH payload' (S i) r j p v); [done| |done..|].
    + by rewrite Nat.add_succ_r in Hp.
    + intros k v' Hk Hpk Hv'. apply (Hlater (S k) v'); [lia| |done].
      by rewrite Nat.add_succ_r.
Qed.

(** Every processed header has maps at its intermediate positions. *)
Lemma range_row_maps row : ∀ payload i r j p,
  range_row payload headers i row = Ok r →
  headers !! (i + j) = Some p → j < length row →
  ∀ q, strict_prefix q (parts_of p) → ∃ m, lookup_path r q = Some (VMap m).
Proof.
  induction row as [|v0 row IH]; intros payload i r j p H Hp Hj; [simpl in Hj; lia|].
  apply range_row_cons_inv in H as (h & payload' & Hh & Hstep & H).
  destruct j as [|j].
  - rewrite Nat.add_0_r, Hh in Hp. injection Hp as ->.
    apply (range_row_keeps_maps row payload' (S i) r i p); [done..|].
    intros q Hq. by apply (buildNestedDict_prefix_map _ _ _ _ _ Hstep).
  - apply (IH payload' (S i) r j p); [done| |simpl in Hj; lia].
    by rewrite Nat.add_succ_r in Hp.
Qed.

End collision_free_rows.

(** The row loop runs to its end when the row is no longer than the header
    list and no written leaf is in the way of a later header. *)
Lemma range_row_total headers row : ∀ payload i written,
  (i + length row ≤ length headers)%nat →
  no_collision_from written (drop i headers) row = true →
  (∀ q x, lookup_path payload q = Some x → is_leaf x = true → q ∈ written) →
  ∃ r, range_row payload headers i row = Ok r.
Proof.
  induction row as [|v row IH]; intros payload i written Hlen Hnc Hleaves.
  { by eexists. }
  simpl in Hlen.
  destruct (lookup_lt_is_Some_2 headers i) as [h Hh]; [lia|].
  rewrite (drop_S _ _ _ Hh) in Hnc. simpl in Hnc.
  apply andb_true_iff in Hnc as [Hw Hnc]. rewrite forallb_forall in Hw.
  rewrite (range_row_cons _ _ _ _ _ _ Hh).
  destruct (buildNestedDict_total payload h v) as [payload' Hstep].
  { intros q x Hq Hx. destruct (is_leaf x) eqn:Hl; [exfalso | done].
    apply Hleaves in Hx; [|done]. apply list_elem_of_In, Hw in Hx.
    apply negb_true_iff in Hx. apply strict_prefixb_spec in Hq. congruence. }
  rewrite Hstep. eapply IH; [lia | exact Hnc |].
  intros q x Hx Hl.
  destruct (buildNestedDict_leaves _ _ _ _ _ _ Hstep Hx Hl) as [Hold|[-> W]].
  - apply Hleaves in Hold; [|done]. destruct (writes_leaf h v); [by right | done].
  - rewrite W. by left.
Qed.

Lemma collision_free_no_collision headers :
  collision_free headers = true → ∀ hs row written,
  (∀ h, h ∈ hs → h ∈ headers) →
  (∀ w, w ∈ written → ∃ h, h ∈ headers ∧ w = parts_of h) →
  no_collision_from written hs row = true.
Proof.
  intros Hfree. induction hs as [|h hs IH]; intros row written Hhs Hw; [done|].
  destruct row as [|v row]; [done|]. simpl. apply andb_true_iff. split.
  - apply forallb_forall. intros w (h' & Hh' & ->)%list_elem_of_In%Hw.
    apply negb_true_iff. destruct (strict_prefixb _ _) eqn:E; [|done].
    apply strict_prefixb_spec in E.
    destruct (proj1 (collision_free_spec headers) Hfree h' h); [done| |done].
    apply Hhs. by left.
  - apply IH.
    + intros h' Hh'. apply Hhs. by right.
    + intros w Hin. destruct (writes_leaf h v); [|by apply Hw].
      apply elem_of_cons in Hin as [->|Hin]; [|by apply Hw].
      exists h. split; [|done]. apply Hhs. by left.
Qed.

Lemma collision_free_range_row_total headers row :
  collision_free headers = true → (length row ≤ length headers)%nat →
  ∃ r, flatten_row headers row = Ok r.
Proof.
  intros Hfree Hlen. apply (range_row_total headers row ∅ 0 []); [simpl; lia| |].
  - rewrite drop_0. apply (collision_free_no_collision headers); [done..|].
    by intros w ?%elem_of_nil.
  - intros q x Hx Hl. destruct q; [by injection Hx as <-|].
    by rewrite lookup_path_empty in Hx.
Qed.

(** What the check [no_collision_from] decides: no path of [written], and no
    path at which an earlier pair of the row wrote a leaf, is a proper prefix
    of the path of a later header that has a cell. *)
Lemma no_collision_from_spec headers : ∀ row written,
  no_collision_from written headers row = true ↔
  (∀ j hj w, (j < length row)%nat → headers !! j = Some hj → w ∈ written →
             ¬ strict_prefix w (parts_of hj))
  ∧ (∀ i j hi vi hj, (i < j)%nat → (j < length row)%nat →
       headers !! i = Some hi → row !! i = Some vi → headers !! j = Some hj →
       writes_leaf hi vi = true →
       ¬ strict_prefix (parts_of hi) (parts_of hj)).
Proof.
  induction headers as [|h hs IH]; intros row written.
  { split; [|done]. intros _. split; [by intros j hj w _ ?| by intros i j hi vi hj _ _ ?]. }
  destruct row as [|v row].
  { split; [|done]. intros _. simpl.
    split; [intros j hj w ?; lia | intros i j hi vi hj _ ?; lia]. }
  simpl. rewrite andb_true_iff, IH, forallb_forall. split.
  - intros (Hw & Hwritten & Hpairs). split.
    + intros [|j] hj w Hj Hhj Hin; simpl in Hhj.
      * injection Hhj as <-. apply list_elem_of_In, Hw, negb_true_iff in Hin.
        rewrite <- strict_prefixb_spec. by rewrite Hin.
      * apply (Hwritten j hj w); [lia|done|].
        destruct (writes_leaf h v); [by right | done].
    + intros i [|j] hi vi hj Hij Hj Hhi Hvi Hhj W; [lia|]. simpl in Hhj.
      destruct i as [|i]; simpl in Hhi, Hvi.
      * injection Hhi as <-. injection Hvi as <-.
        apply (Hwritten j hj); [lia|done|]. rewrite W. by left.
      * apply (Hpairs i j hi vi hj); [lia|lia|done..].
  - intros [Hwritten Hpairs]. split_and!.
    + intros w Hin%list_elem_of_In. apply negb_true_iff.
      destruct (strict_prefixb _ _) eqn:E; [|done].
      apply strict_prefixb_spec in E. by destruct (Hwritten 0 h w ltac:(lia) eq_refl Hin).
    + intros j hj w Hj Hhj Hin. destruct (writes_leaf h v) eqn:W.
      * apply elem_of_cons in Hin as [->|Hin].
        -- apply (Hpairs 0 (S j) h v hj); [lia|lia|done..].
        -- apply (Hwritten (S j) hj w); [lia|done..].
      * apply (Hwritten (S j) hj w); [lia|done..].
    + intros i j hi vi hj Hij Hj Hhi Hvi Hhj W.
      apply (Hpairs (S i) (S j) hi vi hj); [lia|lia|done..].
Qed.

Lemma no_collision_spec headers row :
  no_collision headers row = true ↔
  ∀ i j hi vi hj, (i < j)%nat → (j < length row)%nat →
    headers !! i = Some hi → row !! i = Some vi → headers !! j = Some hj →
    writes_leaf hi vi = true →
    ¬ strict_prefix (parts_of hi) (parts_of hj).
Proof.
  unfold no_collision. rewrite no_collision_from_spec. split; [by intros [_ ?]|].
  intros H. split; [|done]. by intros j hj w _ _ ?%elem_of_nil.
Qed.

(** * Writing twice at the same path *)

(** Whether the walk panics does not depend on the cell value. *)
Lemma range_parts_ok_any_value parts v1 v2 m m1 :
  range_parts m parts v1 = Ok m1 → ∃ m2, range_parts m parts v2 = Ok m2.
Proof.
  intros H. apply range_parts_total. intros q x Hq Hx.
  destruct (is_leaf x) eqn:Hl; [|done].
  by rewrite (range_parts_panic parts v1 m q x) in H.
Qed.

(** A second walk along the same path with a non-empty cell gives what it
    would have given without the first. *)
Lemma range_parts_twice parts v1 v2 : ∀ m m1,
  range_parts m parts v1 = Ok m1 → v2 ≠ "" →
  range_parts m1 parts v2 = range_parts m parts v2.
Proof.
  induction parts as [|part rest IH]; intros m m1 H Hv2.
  { by injection H as <-. }
  destruct (decide (rest = [])) as [->|Hrest].
  - rewrite !range_parts_last in *. apply String.eqb_neq in Hv2. rewrite Hv2. simpl.
    destruct (negb _); injection H as <-; [|done]. by rewrite insert_insert_eq.
  - apply range_parts_cons_inv in H as (n & n1 & Hn & H & ->); [|done].
    rewrite !range_parts_cons by done. rewrite lookup_insert_eq.
    rewrite (IH _ _ H Hv2).
    assert (match m !! part with
            | Some (VMap n0) =>
                match range_parts n0 rest v2 with
                | Ok n' => Ok (<[part:=VMap n']> m)
                | Panic e => Panic e
                end
            | Some _ => Panic TypeAssertion
            | None =>
                match range_parts ∅ rest v2 with
                | Ok n' => Ok (<[part:=VMap n']> m)
                | Panic e => Panic e
                end
            end
            = match range_parts n rest v2 with
              | Ok n' => Ok (<[part:=VMap n']> m)
              | Panic e => Panic e
              end) as ->.
    { by destruct Hn as [[-> ->]| ->]. }
    destruct (range_parts n rest v2); [|done]. by rewrite insert_insert_eq.
Qed.

Lemma buildNestedDict_twice d path v1 v2 d1 :
  buildNestedDict d path v1 = Ok d1 → v2 ≠ "" →
  ∃ d2, buildNestedDict d1 path v2 = Ok d2
        ∧ buildNestedDict d path v2 = Ok d2
        ∧ lookup_path d2 (parts_of path) = Some (leaf_of path v2).
Proof.
  intros H Hv2.
  assert (writes_leaf path v2 = true) as W.
  { unfold writes_leaf. apply String.eqb_neq in Hv2. rewrite Hv2. apply orb_true_r. }
  destruct (is_reserved path) eqn:R.
  - rewrite buildNestedDict_reserved in H by done. injection H as <-.
    eexists. rewrite !buildNestedDict_reserved by done.
    rewrite insert_insert_eq. split_and!; [done..|].
    apply (buildNestedDict_written d); [done|]. by rewrite buildNestedDict_reserved.
  - rewrite buildNestedDict_plain in H by done.
    destruct (range_parts_ok_any_value _ _ v2 _ _ H) as [d2 H2].
    exists d2. rewrite !buildNestedDict_plain by done.
    rewrite (range_parts_twice _ _ _ _ _ H Hv2). split_and!; [done..|].
    apply (buildNestedDict_written d); [done|]. by rewrite buildNestedDict_plain.
Qed.

(** * Settled paths *)

Lemma buildNestedDict_settles d h v d' :
  buildNestedDict d h v = Ok d' → path_settled d' h v.
Proof.
  intros H. split.
  - intros W. exists (leaf_of h v). split; [by apply (buildNestedDict_written d)|].
    unfold leaf_of. by destruct (is_reserved h).
  - intros q Hq. by apply (buildNestedDict_prefix_map _ _ _ _ _ H).
Qed.

Lemma buildNestedDict_keeps_settled d h v d' p vp :
  buildNestedDict d h v = Ok d' →
  ¬ strict_prefix (parts_of h) (parts_of p) →
  ¬ strict_prefix (parts_of p) (parts_of h) →
  path_settled d p vp → path_settled d' p vp.
Proof.
  intros H N1 N2 [Hleaf Hmaps]. split.
  - intros W. destruct (Hleaf W) as (x & Hx & Hl).
    destruct (decide (h = p)) as [->|Hne]; [destruct (writes_leaf p v) eqn:Wv|].
    + exists (leaf_of p v). split; [by apply (buildNestedDict_written d)|].
      unfold leaf_of. by destruct (is_reserved p).
    + exists x. by rewrite (buildNestedDict_keeps_leaf _ _ _ _ _ H).
    + exists x. by rewrite (buildNestedDict_keeps_leaf _ _ _ _ _ H).
  - by apply (buildNestedDict_keeps_maps _ _ _ _ _ H).
Qed.

Lemma range_row_keeps_settled headers row : ∀ payload i r n p vp,
  collision_free headers = true → headers !! n = Some p →
  range_row payload headers i row = Ok r →
  path_settled payload p vp → path_settled r p vp.
Proof.
  induction row as [|v row IH]; intros payload i r n p vp Hfree Hp H Hs.
  { by injection H as <-. }
  apply range_row_cons_inv in H as (h & payload' & Hh & Hstep & H).
  apply (IH payload' (S i) r n p vp); [done..|].
  apply (buildNestedDict_keeps_settled _ _ _ _ _ _ Hstep); [| |done].
  - by apply (headers_no_strict_prefix headers Hfree i n).
  - by apply (headers_no_strict_prefix headers Hfree n i).
Qed.

Lemma range_row_settled headers row : ∀ payload i r j p v,
  collision_free headers = true →
  range_row payload headers i row = Ok r →
  headers !! (i + j) = Some p → row !! j = Some v →
  path_settled r p v.
Proof.
  induction row as [|v0 row IH]; intros payload i r j p v Hfree H Hp Hv; [done|].
  apply range_row_cons_inv in H as (h & payload' & Hh & Hstep & H).
  destruct j as [|j].
  - rewrite Nat.add_0_r, Hh in Hp. injection Hp as ->.
    simpl in Hv. injection Hv as ->.
    apply (range_row_keeps_settled headers row payload' (S i) r i); [done..|].
    by apply (buildNestedDict_settles payload).
  - apply (IH payload' (S i) r j p v); [done..| |done].
    by rewrite Nat.add_succ_r in Hp.
Qed.

(** * A row of one cell *)

Lemma flatten_row_single path v :
  flatten_row [path] [v] = buildNestedDict ∅ path v.
Proof.
  unfold flatten_row. simpl. by destruct (buildNestedDict ∅ path v).
Qed.

Lemma buildNestedDict_fresh_total path v : ∃ r, buildNestedDict ∅ path v = Ok r.
Proof.
  apply buildNestedDict_total. intros q x _ Hx.
  destruct q; [by injection Hx as <-|]. by rewrite lookup_path_empty in Hx.
Qed.

Lemma compound_not_reserved path :
  (1 < length (parts_of path))%nat → is_reserved path = false.
Proof.
  intros Hlen. destruct (is_reserved path) eqn:R; [|done].
  rewrite (reserved_parts _ R) in Hlen. simpl in Hlen. lia.
Qed.

Lemma diverge_at (p : list string) i k k' :
  p !! i = Some k' → k ≠ k' → diverge (take i p ++ [k]) p.
Proof.
  intros Hi Hk. apply take_drop_middle in Hi. revert Hi.
  generalize (take i p) (drop (S i) p). intros t rest <-.
  split; intros Hp%prefix_app_inv%prefix_cons_inv_1; congruence.
Qed.

(** The path of a header is the header cut at its dots: the segments hold no
    dot and, joined with dots, give the header back. *)
Lemma parts_of_dot_segments h :
  Strings.Join (parts_of h) dot = h
  ∧ Forall (λ segment, Strings.Index segment dot = None) (parts_of h).
Proof. split; [apply Join_Split | apply Split_pieces_no_sep]. Qed.

(** One header's path is a proper prefix of another's exactly when the other
    header is the first one, a dot, and more. *)
Lemma strict_prefix_parts_dotted h1 h2 :
  strict_prefix (parts_of h1) (parts_of h2) ↔ ∃ rest, h2 = h1 +:+ String dot rest.
Proof.
  split.
  - intros [[r Hr] Hne]. exists (Strings.Join r dot).
    assert (r ≠ []) as Hrne by (intros ->; by rewrite app_nil_r in Hr).
    rewrite <- (Join_Split dot h2), <- (Join_Split dot h1) at 1.
    fold (parts_of h2) (parts_of h1). rewrite Hr.
    apply Join_app; [apply parts_of_nonempty | done].
  - intros [rest ->]. unfold parts_of. rewrite Split_app_sep. split.
    + by eexists.
    + intros E. rewrite <- (app_nil_r (Strings.Split h1 dot)) in E at 1.
      apply app_inv_head in E. symmetry in E. by apply Split_nonempty in E.
Qed.

(** Collision freedom on the header strings themselves. *)
Lemma collision_free_dotted headers :
  collision_free headers = true ↔
  ∀ h1 h2 rest, h1 ∈ headers → h2 ∈ headers → h2 ≠ h1 +:+ String dot rest.
Proof.
  rewrite collision_free_spec. split.
  - intros H h1 h2 rest H1 H2 E. apply (H h1 h2 H1 H2).
    apply strict_prefix_parts_dotted. by exists rest.
  - intros H h1 h2 H1 H2 [rest E]%strict_prefix_parts_dotted. by apply (H h1 h2 rest).
Qed.

(** * The claims *)

(** C1 (as amended).  For a non-reserved header with an empty cell,
    [buildNestedDict] stores no leaf: what is at the end of the header's path,
    and below it, stays as it was, so in a fresh record the final key is
    absent.  The records of the intermediate segments are created all the
    same: for headers ["a.b"] and row [""] the result is {"a": {}}, and it is
    {} only for an undotted header such as ["a"]. *)
Theorem empty_cell_omits_leaf_only path :
  is_reserved path = false →
  (∀ d d' r, buildNestedDict d path "" = Ok d' →
     lookup_path d' (parts_of path ++ r) = lookup_path d (parts_of path ++ r))
  ∧ (∃ r, flatten_row [path] [""] = Ok r
        ∧ lookup_path r (parts_of path) = None
        ∧ ∀ q, strict_prefix q (parts_of path) →
               ∃ n, lookup_path r q = Some (VMap n))
  ∧ flatten_row ["a.b"] [""] = Ok {[ "a" := VMap ∅ ]}
  ∧ flatten_row ["a"] [""] = Ok ∅.
Proof.
  intros R.
  assert (writes_leaf path "" = false) as W by (by apply writes_leaf_false).
  split_and!.
  - intros d d' r H. by apply (buildNestedDict_not_written d path "").
  - destruct (buildNestedDict_fresh_total path "") as [r Hr].
    exists r. rewrite flatten_row_single. split_and!; [done| |].
    + pose proof (buildNestedDict_not_written _ _ _ _ [] W Hr) as E.
      rewrite app_nil_r in E. rewrite E.
      apply lookup_path_empty, parts_of_nonempty.
    + intros q Hq. by apply (buildNestedDict_prefix_map _ _ _ _ _ Hr).
  - vm_compute. reflexivity.
  - vm_compute. reflexivity.
Qed.

Lemma empty_cell_omits_leaf_only_witness :
  is_reserved "a.b" = false
  ∧ ∃ r, flatten_row ["a.b"] [""] = Ok r ∧ lookup_path r (parts_of "a.b") = None.
Proof.
  split; [reflexivity|].
  destruct (empty_cell_omits_leaf_only "a.b" eq_refl) as (_ & (r & Hr & Hleaf & _) & _).
  exists r. split; assumption.
Defined.

(** C1 as stated fails: the empty cell under "a.b" leaves an empty record
    under "a", so the result is not the empty record. *)
Lemma empty_cell_keeps_intermediate_record :
  flatten_row ["a.b"] [""] = Ok {[ "a" := VMap ∅ ]}
  ∧ flatten_row ["a.b"] [""] ≠ Ok ∅.
Proof.
  split; [vm_compute; reflexivity|].
  intros E. vm_compute in E. discriminate E.
Qed.

(** C2 (as amended).  For each reserved header with an empty cell, the list
    stored under that key at the top level has one element, the empty
    string. *)
Theorem reserved_empty_cell_one_element d path :
  is_reserved path = true →
  buildNestedDict d path "" = Ok (<[path := VList [""]]> d)
  ∧ flatten_row [path] [""] = Ok {[ path := VList [""] ]}.
Proof.
  intros R. rewrite flatten_row_single, !buildNestedDict_reserved by done.
  split; reflexivity.
Qed.

Lemma reserved_empty_cell_one_element_witness :
  is_reserved "payment_methods" = true
  ∧ buildNestedDict ∅ "payment_methods" ""
    = Ok (<["payment_methods" := VList [""]]> ∅).
Proof.
  split; [reflexivity|].
  exact (proj1 (reserved_empty_cell_one_element ∅ "payment_methods" eq_refl)).
Defined.

(** C2 as stated fails: the list stored for an empty cell is not the empty
    list. *)
Lemma reserved_empty_cell_not_empty_list :
  ∃ r, flatten_row ["payment_methods"] [""] = Ok r
       ∧ r !! "payment_methods" = Some (VList [""])
       ∧ r !! "payment_methods" ≠ Some (VList []).
Proof.
  eexists. split; [vm_compute; reflexivity|].
  split; [vm_compute; reflexivity|].
  intros E. vm_compute in E. discriminate E.
Qed.

(** C3.  For headers ["transfer_methods"] and row [""] the result is
    {"transfer_methods": [""]}: splitting the empty string on "," gives the
    one-element list of the empty string. *)
Theorem transfer_methods_empty_cell :
  flatten_row ["transfer_methods"] [""] = Ok {[ "transfer_methods" := VList [""] ]}
  ∧ Strings.Split "" comma = [""].
Proof. split; vm_compute; reflexivity. Qed.

(** C4 (as amended).  The list handling applies only to a header that is
    "payment_methods" or "transfer_methods" as a whole.  A compound (dotted)
    header is never taken as reserved, whatever its segments are: its
    non-empty cell is stored unsplit, as one string leaf at the end of the
    nested path, with a record at each intermediate segment; so
    "a.payment_methods" with "x,y" gives {"a": {"payment_methods": "x,y"}}
    and "payment_methods.a" with "x" gives {"payment_methods": {"a": "x"}}. *)
Theorem compound_header_not_reserved path v :
  (1 < length (parts_of path))%nat → v ≠ "" →
  is_reserved path = false
  ∧ (∃ r, flatten_row [path] [v] = Ok r
        ∧ lookup_path r (parts_of path) = Some (VStr v)
        ∧ ∀ q, strict_prefix q (parts_of path) →
               ∃ n, lookup_path r q = Some (VMap n))
  ∧ flatten_row ["a.payment_methods"] ["x,y"]
    = Ok {[ "a" := VMap {[ "payment_methods" := VStr "x,y" ]} ]}
  ∧ flatten_row ["payment_methods.a"] ["x"]
    = Ok {[ "payment_methods" := VMap {[ "a" := VStr "x" ]} ]}.
Proof.
  intros Hlen Hv. pose proof (compound_not_reserved _ Hlen) as R.
  split_and!; [done| |vm_compute; reflexivity..].
  destruct (buildNestedDict_fresh_total path v) as [r Hr].
  exists r. rewrite flatten_row_single. split_and!; [done| |].
  - rewrite buildNestedDict_plain in Hr by done.
    by apply (range_parts_leaf _ _ ∅); [apply parts_of_nonempty|..].
  - intros q Hq. by apply (buildNestedDict_prefix_map _ _ _ _ _ Hr).
Qed.

Lemma compound_header_not_reserved_witness :
  (1 < length (parts_of "a.transfer_methods"))%nat ∧ "x,y" ≠ ""
  ∧ ∃ r, flatten_row ["a.transfer_methods"] ["x,y"] = Ok r
         ∧ lookup_path r (parts_of "a.transfer_methods") = Some (VStr "x,y").
Proof.
  assert (1 < length (parts_of "a.transfer_methods"))%nat as Hlen by (vm_compute; lia).
  assert ("x,y" ≠ "") as Hv by discriminate.
  split; [exact Hlen|]. split; [exact Hv|].
  destruct (compound_header_not_reserved "a.transfer_methods" "x,y" Hlen Hv)
    as (_ & (r & Hr & Hleaf & _) & _).
  exists r. split; assumption.
Defined.

(** C4 as stated fails: under the compound header "a.payment_methods" the
    cell "x,y" is stored as the string "x,y", not as the list ["x", "y"]. *)
Lemma reserved_segment_in_compound_header :
  ∃ r, flatten_row ["a.payment_methods"] ["x,y"] = Ok r
       ∧ lookup_path r ["a"; "payment_methods"] = Some (VStr "x,y")
       ∧ lookup_path r ["a"; "payment_methods"] ≠ Some (VList ["x"; "y"]).
Proof.
  eexists. split; [vm_compute; reflexivity|].
  split; [vm_compute; reflexivity|].
  intros E. vm_compute in E. discriminate E.
Qed.

(** C5.  For a header that is "payment_methods" or "transfer_methods" exactly
    and any cell value [v], the pair puts the list [Split v ","] under that
    key at the top level of the record and does nothing else; the pieces are
    untrimmed (joined with "," they give [v] back).  Headers
    ["payment_methods"] with row ["bank,card"] give
    {"payment_methods": ["bank", "card"]}. *)
Theorem reserved_header_comma_split d path v :
  is_reserved path = true →
  buildNestedDict d path v = Ok (<[path := VList (Strings.Split v comma)]> d)
  ∧ flatten_row [path] [v] = Ok {[ path := VList (Strings.Split v comma) ]}
  ∧ Strings.Join (Strings.Split v comma) comma = v
  ∧ flatten_row ["payment_methods"] ["bank,card"]
    = Ok {[ "payment_methods" := VList ["bank"; "card"] ]}
  ∧ flatten_row ["transfer_methods"] [" a , b "]
    = Ok {[ "transfer_methods" := VList [" a "; " b "] ]}.
Proof.
  intros R. rewrite flatten_row_single, !buildNestedDict_reserved by done.
  split_and!; [done|done|apply Join_Split|vm_compute; reflexivity..].
Qed.

Lemma reserved_header_comma_split_witness :
  is_reserved "payment_methods" = true
  ∧ buildNestedDict {[ "a" := VStr "z" ]} "payment_methods" "bank,card"
    = Ok (<["payment_methods" := VList (Strings.Split "bank,card" comma)]>
            {[ "a" := VStr "z" ]}).
Proof.
  split; [reflexivity|].
  exact (proj1 (reserved_header_comma_split {[ "a" := VStr "z" ]}
                  "payment_methods" "bank,card" eq_refl)).
Defined.

(** C6.  Last write wins.  A pair with a non-empty cell, processed after an
    earlier pair for the same header, succeeds, leaves its own value at the
    path, and gives the record the earlier pair had not touched would have
    become.  In a row over collision-free headers the value at a header's
    path is that of the last pair for the header that wrote.  Headers
    ["a.b", "a.b"] with row ["x", "y"] give {"a": {"b": "y"}}. *)
Theorem last_write_wins :
  (∀ d path v1 v2 d1,
     buildNestedDict d path v1 = Ok d1 → v2 ≠ "" →
     ∃ d2, buildNestedDict d1 path v2 = Ok d2
           ∧ buildNestedDict d path v2 = Ok d2
           ∧ lookup_path d2 (parts_of path) = Some (leaf_of path v2))
  ∧ (∀ headers row r j path v,
       collision_free headers = true → flatten_row headers row = Ok r →
       headers !! j = Some path → row !! j = Some v → v ≠ "" →
       (∀ k v', j < k → headers !! k = Some path → row !! k = Some v' →
                writes_leaf path v' = false) →
       lookup_path r (parts_of path) = Some (leaf_of path v))
  ∧ flatten_row ["a.b"; "a.b"] ["x"; "y"] = Ok {[ "a" := VMap {[ "b" := VStr "y" ]} ]}.
Proof.
  split_and!.
  - intros d path v1 v2 d1. apply buildNestedDict_twice.
  - intros headers row r j path v Hfree H Hj Hv Hne Hlater.
    apply (range_row_last_write headers Hfree row ∅ 0 r j path v); [done..| |done].
    unfold writes_leaf. apply String.eqb_neq in Hne. rewrite Hne. apply orb_true_r.
  - vm_compute. reflexivity.
Qed.

Lemma last_write_wins_witness :
  ∃ d2, buildNestedDict {[ "a" := VMap {[ "b" := VStr "x" ]} ]} "a.b" "y" = Ok d2
        ∧ lookup_path d2 (parts_of "a.b") = Some (leaf_of "a.b" "y").
Proof.
  assert (buildNestedDict ∅ "a.b" "x" = Ok {[ "a" := VMap {[ "b" := VStr "x" ]} ]})
    as H1 by (vm_compute; reflexivity).
  assert ("y" ≠ "") as Hv by discriminate.
  destruct (proj1 last_write_wins ∅ "a.b" "x" "y" _ H1 Hv) as (d2 & H2 & _ & Hleaf).
  exists d2. split; assumption.
Defined.

Lemma lookup_path_singleton d k : lookup_path d [k] = d !! k.
Proof. rewrite lookup_path_cons. by destruct (d !! k). Qed.

(** C7.  For a header list free of collisions (no header is another header
    followed by a dot and more, that is, no header's path is a proper prefix
    of another's) and a row no longer than it, flattening returns a record in
    which, for every processed pair: the path is the header cut at its dots;
    each intermediate position of the path holds a nested record; a non-empty
    cell has a leaf at the end of the path, and that is the only leaf on the
    path's branch; and no other header shares the position.  So headers
    ["a.b", "a.c"] with row ["x", "y"] give {"a": {"b": "x", "c": "y"}} and
    ["a.b.c"] with ["x"] gives {"a": {"b": {"c": "x"}}}. *)
Theorem collision_free_paths_settled headers row :
  collision_free headers = true → (length row ≤ length headers)%nat →
  (∀ h1 h2 rest, h1 ∈ headers → h2 ∈ headers → h2 ≠ h1 +:+ String dot rest)
  ∧ (∃ r, flatten_row headers row = Ok r ∧
      ∀ i h v, headers !! i = Some h → row !! i = Some v →
        (Strings.Join (parts_of h) dot = h
         ∧ Forall (λ segment, Strings.Index segment dot = None) (parts_of h))
        ∧ (∀ q, strict_prefix q (parts_of h) → ∃ m, lookup_path r q = Some (VMap m))
        ∧ (v ≠ "" →
           (∃ x, lookup_path r (parts_of h) = Some x ∧ is_leaf x = true)
           ∧ ∀ q x, q `prefix_of` parts_of h ∨ parts_of h `prefix_of` q →
                    lookup_path r q = Some x → is_leaf x = true → q = parts_of h)
        ∧ (∀ h', parts_of h' = parts_of h → h' = h))
  ∧ flatten_row ["a.b"; "a.c"] ["x"; "y"]
    = Ok {[ "a" := VMap (<["c" := VStr "y"]> {[ "b" := VStr "x" ]}) ]}
  ∧ flatten_row ["a.b.c"] ["x"]
    = Ok {[ "a" := VMap {[ "b" := VMap {[ "c" := VStr "x" ]} ]} ]}.
Proof.
  intros Hfree Hlen.
  split_and!; [by apply collision_free_dotted| |vm_compute; reflexivity..].
  destruct (collision_free_range_row_total headers row Hfree Hlen) as [r Hr].
  exists r. split; [done|]. intros i h v Hh Hv.
  destruct (range_row_settled headers row ∅ 0 r i h v Hfree Hr Hh Hv) as [Hleaf Hmaps].
  split; [apply parts_of_dot_segments|].
  split_and!; [done| |intros h'; apply parts_of_inj].
  intros Hne.
  destruct Hleaf as (x & Hx & Hl).
  { unfold writes_leaf. apply String.eqb_neq in Hne. rewrite Hne. apply orb_true_r. }
  split; [by exists x|]. intros q x' Hq Hx' Hl'.
  destruct (decide (q = parts_of h)) as [|Hqne]; [done|exfalso].
  destruct Hq as [Hq|[r' ->]].
  - destruct (Hmaps q) as [m Hm]; [done|]. rewrite Hm in Hx'. by injection Hx' as <-.
  - unfold lookup_path in Hx', Hx. rewrite get_path_app, Hx in Hx'. simpl in Hx'.
    apply get_path_leaf in Hx' as [-> _]; [|done]. by rewrite app_nil_r in Hqne.
Qed.

Lemma collision_free_paths_settled_witness :
  collision_free ["a.b"; "a.c"; "payment_methods"] = true
  ∧ (length ["x"; ""; "p,q"] ≤ length ["a.b"; "a.c"; "payment_methods"])%nat
  ∧ ∃ r, flatten_row ["a.b"; "a.c"; "payment_methods"] ["x"; ""; "p,q"] = Ok r
         ∧ (∃ m, lookup_path r ["a"] = Some (VMap m))
         ∧ (∃ x, lookup_path r ["a"; "b"] = Some x ∧ is_leaf x = true)
         ∧ Strings.Join ["a"; "b"] dot = "a.b".
Proof.
  assert (collision_free ["a.b"; "a.c"; "payment_methods"] = true) as Hfree
    by (vm_compute; reflexivity).
  assert (length ["x"; ""; "p,q"] ≤ length ["a.b"; "a.c"; "payment_methods"])%nat
    as Hlen by (simpl; lia).
  split; [exact Hfree|]. split; [exact Hlen|].
  destruct (collision_free_paths_settled _ _ Hfree Hlen) as (_ & (r & Hr & Hall) & _).
  destruct (Hall 0%nat "a.b" "x" eq_refl eq_refl) as ((Hjoin & _) & Hmaps & Hleaf & _).
  exists r. split; [exact Hr|]. split; [|split].
  - apply (Hmaps ["a"]). split.
    + exists ["b"]. reflexivity.
    + discriminate.
  - apply Hleaf. discriminate.
  - exact Hjoin.
Defined.

(** C8.  For headers and a row of equal length in which no leaf written for
    an earlier pair sits at an intermediate segment of a later header's path,
    the flattening returns a record: neither [headers[i]] nor the type
    assertion on an intermediate node panics.  Header lists free of
    collisions meet the condition for every row. *)
Theorem flatten_row_no_panic headers row :
  length headers = length row →
  (no_collision headers row = true → ∃ r, flatten_row headers row = Ok r)
  ∧ (collision_free headers = true → no_collision headers row = true).
Proof.
  intros Hlen. split.
  - intros Hnc. apply (range_row_total headers row ∅ 0 []).
    + simpl. lia.
    + by rewrite drop_0.
    + intros q x Hx Hl. destruct q; [by injection Hx as <-|].
      by rewrite lookup_path_empty in Hx.
  - intros Hfree. apply (collision_free_no_collision headers); [done..|].
    by intros w ?%elem_of_nil.
Qed.

Lemma flatten_row_no_panic_witness :
  length ["a"; "a.b"; "a.b.c"] = length [""; ""; "x"]
  ∧ no_collision ["a"; "a.b"; "a.b.c"] [""; ""; "x"] = true
  ∧ ∃ r, flatten_row ["a"; "a.b"; "a.b.c"] [""; ""; "x"] = Ok r.
Proof.
  assert (length ["a"; "a.b"; "a.b.c"] = length [""; ""; "x"]) as Hlen by reflexivity.
  assert (no_collision ["a"; "a.b"; "a.b.c"] [""; ""; "x"] = true) as Hnc
    by (vm_compute; reflexivity).
  split; [exact Hlen|]. split; [exact Hnc|].
  exact (proj1 (flatten_row_no_panic _ _ Hlen) Hnc).
Defined.

(** C10.  A pair changes entries along its header's path only.  After
    [buildNestedDict d path v]: every top-level key other than the first
    segment of the path (the header itself for the two reserved ones) has the
    binding it had; in the map reached after [i] segments every key other
    than segment [i] has the binding it had; and so has every position that
    parts from the path. *)
Theorem buildNestedDict_frame d path v d' :
  buildNestedDict d path v = Ok d' →
  (∀ k, parts_of path !! 0 ≠ Some k → d' !! k = d !! k)
  ∧ (is_reserved path = true → ∀ k, k ≠ path → d' !! k = d !! k)
  ∧ (∀ i k, (i < length (parts_of path))%nat → parts_of path !! i ≠ Some k →
       lookup_path d' (take i (parts_of path) ++ [k])
       = lookup_path d (take i (parts_of path) ++ [k]))
  ∧ (∀ q, diverge q (parts_of path) → lookup_path d' q = lookup_path d q).
Proof.
  intros H.
  assert (∀ i k, (i < length (parts_of path))%nat → parts_of path !! i ≠ Some k →
            lookup_path d' (take i (parts_of path) ++ [k])
            = lookup_path d (take i (parts_of path) ++ [k])) as Hlevel.
  { intros i k Hi Hk.
    destruct (lookup_lt_is_Some_2 (parts_of path) i Hi) as [k' Hk'].
    apply (buildNestedDict_frame_path _ _ _ _ _ H).
    apply (diverge_at _ _ _ k'); [done|]. congruence. }
  assert (∀ k, parts_of path !! 0 ≠ Some k → d' !! k = d !! k) as Htop.
  { intros k Hk. rewrite <- !lookup_path_singleton. apply (Hlevel 0 k); [|done].
    apply Split_length. }
  split_and!; [done| |done|].
  - intros R k Hk. apply Htop. rewrite (reserved_parts _ R). simpl. congruence.
  - intros q. by apply (buildNestedDict_frame_path d path v).
Qed.

Lemma buildNestedDict_frame_witness :
  buildNestedDict {[ "a" := VMap {[ "c" := VStr "y" ]} ]} "a.b" "x"
  = Ok {[ "a" := VMap (<["b" := VStr "x"]> {[ "c" := VStr "y" ]}) ]}
  ∧ lookup_path {[ "a" := VMap (<["b" := VStr "x"]> {[ "c" := VStr "y" ]}) ]} ["a"; "c"]
    = lookup_path {[ "a" := VMap {[ "c" := VStr "y" ]} ]} ["a"; "c"].
Proof.
  assert (buildNestedDict {[ "a" := VMap {[ "c" := VStr "y" ]} ]} "a.b" "x"
          = Ok {[ "a" := VMap (<["b" := VStr "x"]> {[ "c" := VStr "y" ]}) ]}) as H
    by (vm_compute; reflexivity).
  split; [exact H|].
  destruct (buildNestedDict_frame _ _ _ _ H) as (_ & _ & Hlevel & _).
  apply (Hlevel 1 "c"); [vm_compute; lia | vm_compute; discriminate].
Defined.

(** * The store of map objects *)

Lemma heap_length_store h a k c : length (Heap.store h a k c) = length h.
Proof. apply length_alter. Qed.

Lemma heap_lookup_store_ne h a k c b : a ≠ b → Heap.store h a k c !! b = h !! b.
Proof. intros. by apply list_lookup_alter_ne. Qed.

Lemma heap_load_store_eq h a k c :
  (a < length h)%nat → Heap.load (Heap.store h a k c) a k = Some c.
Proof.
  intros [m Hm]%lookup_lt_is_Some_2. unfold Heap.load, Heap.store.
  rewrite list_lookup_alter_eq, Hm. simpl. by rewrite lookup_insert_eq.
Qed.

Lemma heap_load_store_ne_key h a k c k' :
  k ≠ k' → Heap.load (Heap.store h a k c) a k' = Heap.load h a k'.
Proof.
  intros Hk. unfold Heap.load, Heap.store. rewrite list_lookup_alter_eq.
  destruct (h !! a) as [m|]; simpl; [|done]. by rewrite lookup_insert_ne.
Qed.

Lemma heap_load_ext h h' a k : h' !! a = h !! a → Heap.load h' a k = Heap.load h a k.
Proof. unfold Heap.load. by intros ->. Qed.

Lemma heap_load_lt h a k c : Heap.load h a k = Some c → (a < length h)%nat.
Proof.
  unfold Heap.load. destruct (h !! a) eqn:E; [|done].
  intros _. by apply lookup_lt_Some in E.
Qed.

Lemma heap_get_path_cons h a k q :
  Heap.get_path h (CRef a) (k :: q) = Heap.load h a k ≫= λ c, Heap.get_path h c q.
Proof. simpl. by destruct (Heap.load h a k). Qed.

Lemma heap_get_path_leaf h c q x :
  shape_of_cell c ≠ SMap → Heap.get_path h c q = Some x → q = [] ∧ x = c.
Proof. destruct q, c; simpl; intros; simplify_eq; done. Qed.

Lemma heap_reach_refl h a : Heap.reach h (CRef a) a.
Proof. by exists []. Qed.

Lemma heap_reach_child h a k c b :
  Heap.load h a k = Some c → Heap.reach h c b → Heap.reach h (CRef a) b.
Proof. intros Hc [q Hq]. exists (k :: q). by rewrite heap_get_path_cons, Hc. Qed.

Lemma heap_reach_inv h a b :
  Heap.reach h (CRef a) b →
  b = a ∨ ∃ k c, Heap.load h a k = Some c ∧ Heap.reach h c b.
Proof.
  intros [[|k q] Hq]; [left; by injection Hq as <-|right].
  rewrite heap_get_path_cons in Hq.
  destruct (Heap.load h a k) as [c|] eqn:E; [|done].
  exists k, c. split; [done|]. by exists q.
Qed.

Lemma heap_reach_leaf h c b : shape_of_cell c ≠ SMap → ¬ Heap.reach h c b.
Proof.
  intros Hc [q Hq]. apply heap_get_path_leaf in Hq as [_ <-]; [|done]. by destruct Hc.
Qed.

(** Following a path only looks at the objects that can be reached. *)
Lemma heap_get_path_ext h h' : ∀ q c,
  (∀ b, Heap.reach h c b → h' !! b = h !! b) →
  Heap.get_path h' c q = Heap.get_path h c q.
Proof.
  induction q as [|k q IH]; intros c Hsame; [done|].
  destruct c as [s|l|a]; try done. rewrite !heap_get_path_cons.
  rewrite (heap_load_ext h h' a k) by apply Hsame, heap_reach_refl.
  destruct (Heap.load h a k) as [c|] eqn:E; simpl; [|done].
  apply IH. intros b Hb. apply Hsame. by apply (heap_reach_child _ _ k c).
Qed.

Lemma represents_ext h h' c v :
  (∀ q, Heap.get_path h' c q = Heap.get_path h c q) →
  (length h ≤ length h')%nat →
  represents h c v → represents h' c v.
Proof.
  intros Hsame Hlen (Hr & Hu & Hs). split_and!.
  - intros q. by rewrite Hsame.
  - intros q1 q2 b. rewrite !Hsame. apply Hu.
  - intros b [q Hq]. rewrite Hsame in Hq.
    assert (b < length h)%nat; [|lia]. apply Hs. by exists q.
Qed.

Lemma heap_reach_ext h h' c b :
  (∀ q, Heap.get_path h' c q = Heap.get_path h c q) →
  Heap.reach h' c b ↔ Heap.reach h c b.
Proof. intros Hsame. unfold Heap.reach. by setoid_rewrite Hsame. Qed.

Lemma represents_leaf h c v :
  shape_of_cell c ≠ SMap → shape_of_cell c = shape_of_value v → represents h c v.
Proof.
  intros Hc Hv. split_and!.
  - intros [|k q]; simpl; [by rewrite Hv|]. by destruct c, v.
  - intros q1 q2 b H1. by apply heap_get_path_leaf in H1 as [_ <-].
  - intros b Hb. by apply heap_reach_leaf in Hb.
Qed.

(** A represented record, seen from its top map object: the object is in the
    store, its entries represent the entries of the record and do not lead
    back to it, and no object is under two entries. *)
Lemma represents_children h a m :
  represents h (CRef a) (VMap m) →
  (a < length h)%nat
  ∧ (∀ k, match Heap.load h a k, m !! k with
          | None, None => True
          | Some c, Some x => represents h c x ∧ ¬ Heap.reach h c a
          | _, _ => False
          end)
  ∧ (∀ k1 k2 c1 c2 b, k1 ≠ k2 →
       Heap.load h a k1 = Some c1 → Heap.load h a k2 = Some c2 →
       Heap.reach h c1 b → Heap.reach h c2 b → False).
Proof.
  intros (Hr & Hu & Hs). split_and!.
  - apply Hs, heap_reach_refl.
  - intros k. pose proof (Hr [k]) as H1. rewrite heap_get_path_cons in H1.
    simpl in H1.
    destruct (Heap.load h a k) as [c|] eqn:Ec, (m !! k) as [x|] eqn:Ex;
      simpl in H1; try done.
    split; [split_and!|].
    + intros q. specialize (Hr (k :: q)).
      rewrite heap_get_path_cons, Ec in Hr. simpl in Hr. by rewrite Ex in Hr.
    + intros q1 q2 b H1' H2'.
      assert (k :: q1 = k :: q2) as [= ->]; [|done].
      apply (Hu _ _ b); by rewrite heap_get_path_cons, Ec.
    + intros b Hb. apply Hs. by apply (heap_reach_child _ _ k c).
    + intros [q Hq]. assert (k :: q = []); [|done].
      apply (Hu _ _ a); [by rewrite heap_get_path_cons, Ec | done].
  - intros k1 k2 c1 c2 b Hk H1 H2 [q1 Hq1] [q2 Hq2].
    assert (k1 :: q1 = k2 :: q2) as [= ? ?]; [|done].
    apply (Hu _ _ b); rewrite heap_get_path_cons; [by rewrite H1 | by rewrite H2].
Qed.

Lemma represents_intro h a m :
  (a < length h)%nat →
  (∀ k, match Heap.load h a k, m !! k with
        | None, None => True
        | Some c, Some x => represents h c x ∧ ¬ Heap.reach h c a
        | _, _ => False
        end) →
  (∀ k1 k2 c1 c2 b, k1 ≠ k2 →
     Heap.load h a k1 = Some c1 → Heap.load h a k2 = Some c2 →
     Heap.reach h c1 b → Heap.reach h c2 b → False) →
  represents h (CRef a) (VMap m).
Proof.
  intros Ha Hch Hdisj. split_and!.
  - intros [|k q]; [done|]. rewrite heap_get_path_cons. simpl.
    specialize (Hch k).
    destruct (Heap.load h a k) as [c|], (m !! k) as [x|]; simpl; try done.
    destruct Hch as [(Hr & _ & _) _]. apply Hr.
  - intros q1 q2 b H1 H2.
    assert (∀ k q, Heap.get_path h (CRef a) (k :: q) = Some (CRef a) → False) as Hloop.
    { intros k q Hq. rewrite heap_get_path_cons in Hq. specialize (Hch k).
      destruct (Heap.load h a k) as [c|]; [|done].
      destruct (m !! k); [|done]. destruct Hch as [_ Hn]. apply Hn. by exists q. }
    destruct q1 as [|k1 q1], q2 as [|k2 q2]; [done|..].
    + injection H1 as <-. by destruct (Hloop _ _ H2).
    + injection H2 as <-. by destruct (Hloop _ _ H1).
    + rewrite heap_get_path_cons in H1, H2.
      destruct (Heap.load h a k1) as [c1|] eqn:E1; [|done].
      destruct (Heap.load h a k2) as [c2|] eqn:E2; [|done].
      simpl in H1, H2.
      destruct (decide (k1 = k2)) as [->|Hk].
      * rewrite E1 in E2. injection E2 as <-. pose proof (Hch k2) as Hk2.
        rewrite E1 in Hk2. destruct (m !! k2); [|done].
        destruct Hk2 as [(_ & Hu & _) _]. by rewrite (Hu _ _ _ H1 H2).
      * destruct (Hdisj k1 k2 c1 c2 b Hk E1 E2); [by exists q1 | by exists q2].
  - intros b [->|(k & c & Hc & Hb)]%heap_reach_inv; [done|].
    specialize (Hch k). rewrite Hc in Hch. destruct (m !! k); [|done].
    destruct Hch as [(_ & _ & Hs) _]. by apply Hs.
Qed.

(** The entry under [part] of the top object is replaced, or the record under
    it is worked on; the rest of the store is left alone.  The new store then
    represents the record with the new entry. *)
Lemma represents_update h h' cur m part c_new x_new :
  represents h (CRef cur) (VMap m) →
  (length h ≤ length h')%nat →
  Heap.load h' cur part = Some c_new →
  (∀ k, k ≠ part → Heap.load h' cur k = Heap.load h cur k) →
  (∀ b, (b < length h)%nat → b ≠ cur →
        (∀ c0, Heap.load h cur part = Some c0 → ¬ Heap.reach h c0 b) →
        h' !! b = h !! b) →
  represents h' c_new x_new →
  (∀ b, Heap.reach h' c_new b →
        (∃ c0, Heap.load h cur part = Some c0 ∧ Heap.reach h c0 b)
        ∨ (length h ≤ b)%nat) →
  represents h' (CRef cur) (VMap (<[part := x_new]> m))
  ∧ grows_below h (CRef cur) h'.
Proof.
  intros Hrep Hlen Hnew Hkeys Hother Hrepnew Hreachnew.
  destruct (represents_children _ _ _ Hrep) as (Hcur & Hch & Hdisj).
  assert (∀ k c, k ≠ part → Heap.load h cur k = Some c →
            ∀ q, Heap.get_path h' c q = Heap.get_path h c q) as Hsib.
  { intros k c Hk Hc q. apply heap_get_path_ext. intros b Hb.
    pose proof (Hch k) as Hck. rewrite Hc in Hck.
    destruct (m !! k) as [x|]; [|done]. destruct Hck as [(_ & _ & Hs) Hn].
    apply Hother.
    - by apply Hs.
    - intros ->. by apply Hn.
    - intros c0 Hc0 Hb0. by apply (Hdisj k part c c0 b). }
  assert (¬ Heap.reach h' c_new cur) as Hnocycle.
  { intros [(c0 & Hc0 & Hb)|?]%Hreachnew; [|lia].
    pose proof (Hch part) as Hcp. rewrite Hc0 in Hcp.
    destruct (m !! part); [|done]. by destruct Hcp as [_ Hn]. }
  split.
  - apply represents_intro; [lia| |].
    + intros k. destruct (decide (k = part)) as [->|Hk].
      * by rewrite Hnew, lookup_insert_eq.
      * rewrite (Hkeys k Hk), lookup_insert_ne by done.
        pose proof (Hch k) as Hck.
        destruct (Heap.load h cur k) as [c|] eqn:Ec, (m !! k) as [x|]; try done.
        destruct Hck as [Hc Hn]. split.
        -- apply (represents_ext h); [by apply (Hsib k)|done..].
        -- by rewrite (heap_reach_ext h h' c cur (Hsib k c Hk Ec)).
    + assert (∀ k c b, k ≠ part → Heap.load h' cur k = Some c →
                Heap.reach h' c b → Heap.reach h' c_new b → False) as Hone.
      { intros k c b Hk Hc Hb Hbn. rewrite (Hkeys k Hk) in Hc.
        rewrite (heap_reach_ext h h' c b (Hsib k c Hk Hc)) in Hb.
        pose proof (Hch k) as Hck. rewrite Hc in Hck.
        destruct (m !! k) as [x|]; [|done]. destruct Hck as [(_ & _ & Hs) _].
        apply Hreachnew in Hbn as [(c0 & Hc0 & Hb0)|?].
        - by apply (Hdisj k part c c0 b).
        - apply Hs in Hb. lia. }
      intros k1 k2 c1 c2 b Hk H1 H2 Hb1 Hb2.
      destruct (decide (k1 = part)) as [->|Hk1], (decide (k2 = part)) as [->|Hk2].
      * done.
      * rewrite Hnew in H1. injection H1 as <-. by apply (Hone k2 c2 b).
      * rewrite Hnew in H2. injection H2 as <-. by apply (Hone k1 c1 b).
      * rewrite (Hkeys k1 Hk1) in H1. rewrite (Hkeys k2 Hk2) in H2.
        rewrite (heap_reach_ext h h' c1 b (Hsib k1 c1 Hk1 H1)) in Hb1.
        rewrite (heap_reach_ext h h' c2 b (Hsib k2 c2 Hk2 H2)) in Hb2.
        by apply (Hdisj k1 k2 c1 c2 b).
  - split_and!; [done| |].
    + intros b Hb Hnb. apply Hother; [done| |].
      * intros ->. apply Hnb, heap_reach_refl.
      * intros c0 Hc0 Hb0. apply Hnb. by apply (heap_reach_child _ _ part c0).
    + intros b [->|(k & c & Hc & Hb)]%heap_reach_inv.
      { left. apply heap_reach_refl. }
      destruct (decide (k = part)) as [->|Hk].
      * rewrite Hnew in Hc. injection Hc as <-.
        apply Hreachnew in Hb as [(c0 & Hc0 & Hb0)|?]; [left|by right].
        by apply (heap_reach_child _ _ part c0).
      * rewrite (Hkeys k Hk) in Hc.
        rewrite (heap_reach_ext h h' c b (Hsib k c Hk Hc)) in Hb.
        left. by apply (heap_reach_child _ _ k c).
Qed.

Lemma grows_below_refl h c : grows_below h c h.
Proof. split_and!; [done|done|]. intros b Hb. by left. Qed.

Lemma grows_below_trans h1 h2 h3 c :
  grows_below h1 c h2 → grows_below h2 c h3 → grows_below h1 c h3.
Proof.
  intros (Hlen1 & Hsame1 & Hreach1) (Hlen2 & Hsame2 & Hreach2). split_and!.
  - lia.
  - intros b Hb Hnb. rewrite Hsame2; [by apply Hsame1|lia|].
    intros [?|?]%Hreach1; [done|lia].
  - intros b [[?|?]%Hreach1|?]%Hreach2; [by left|right..]; lia.
Qed.

(** * The two readings of the code agree *)

Lemma heap_range_parts_last h cur part v :
  Heap.range_parts h cur [part] v
  = if negb (String.eqb v "") then Ok (Heap.store h cur part (CStr v)) else Ok h.
Proof. reflexivity. Qed.

Lemma heap_range_parts_unfold h cur part p2 rest v :
  Heap.range_parts h cur (part :: p2 :: rest) v
  = let h1 :=
      match Heap.load h cur part with
      | None => Heap.store (h ++ [∅]) cur part (CRef (length h))
      | Some _ => h
      end in
    match Heap.load h1 cur part with
    | Some (CRef next) => Heap.range_parts h1 next (p2 :: rest) v
    | _ => Panic TypeAssertion
    end.
Proof. reflexivity. Qed.

(** Storing a string or a list under a key of the top object. *)
Lemma represents_store_leaf h cur m part c x :
  represents h (CRef cur) (VMap m) →
  shape_of_cell c ≠ SMap → shape_of_cell c = shape_of_value x →
  represents (Heap.store h cur part c) (CRef cur) (VMap (<[part := x]> m))
  ∧ grows_below h (CRef cur) (Heap.store h cur part c).
Proof.
  intros Hrep Hc Hx.
  destruct (represents_children _ _ _ Hrep) as (Hcur & _ & _).
  apply (represents_update h _ cur m part c x); [done|..].
  - by rewrite heap_length_store.
  - by apply heap_load_store_eq.
  - intros k Hk. by apply heap_load_store_ne_key.
  - intros b _ Hb _. by apply heap_lookup_store_ne.
  - by apply represents_leaf.
  - intros b Hb. by apply heap_reach_leaf in Hb.
Qed.

(** Making the empty map for an absent intermediate segment. *)
Lemma represents_make_child h cur m part :
  represents h (CRef cur) (VMap m) → Heap.load h cur part = None →
  let h1 := Heap.store (h ++ [∅]) cur part (CRef (length h)) in
  represents h1 (CRef cur) (VMap (<[part := VMap ∅]> m))
  ∧ grows_below h (CRef cur) h1
  ∧ Heap.load h1 cur part = Some (CRef (length h)).
Proof.
  intros Hrep Hnone h1.
  destruct (represents_children _ _ _ Hrep) as (Hcur & _ & _).
  assert (Heap.load h1 cur part = Some (CRef (length h))) as Hload.
  { apply heap_load_store_eq. rewrite length_app. simpl. lia. }
  assert (h1 !! length h = Some ∅) as Hfresh.
  { unfold h1. rewrite heap_lookup_store_ne by lia. by apply list_lookup_middle. }
  assert (∀ q, q ≠ [] → Heap.get_path h1 (CRef (length h)) q = None) as Hempty.
  { intros [|k q] Hq; [done|]. rewrite heap_get_path_cons. unfold Heap.load.
    by rewrite Hfresh. }
  assert (∀ b, Heap.reach h1 (CRef (length h)) b → b = length h) as Honly.
  { intros b [[|k q] Hq]; [by injection Hq as <-|]. by rewrite Hempty in Hq. }
  assert (represents h1 (CRef (length h)) (VMap ∅)) as Hrepnew.
  { split_and!.
    - intros [|k q]; [done|]. rewrite Hempty by done. simpl. by rewrite lookup_empty.
    - intros [|k1 q1] [|k2 q2] b H1 H2; try done.
      + by rewrite Hempty in H2.
      + by rewrite Hempty in H1.
      + by rewrite Hempty in H1.
    - intros b ->%Honly. unfold h1. rewrite heap_length_store, length_app.
      simpl. lia. }
  destruct (represents_update h h1 cur m part (CRef (length h)) (VMap ∅))
    as [H1 H2]; try done.
  - unfold h1. rewrite heap_length_store, length_app. simpl. lia.
  - intros k Hk. unfold h1. rewrite heap_load_store_ne_key by done.
    apply heap_load_ext, lookup_app_l. lia.
  - intros b Hb Hne _. unfold h1. rewrite heap_lookup_store_ne by done.
    by apply lookup_app_l.
  - intros b ->%Honly. right. lia.
Qed.

(** The walk over the store does to the represented record what the walk
    over the record does, and panics when that one does. *)
Lemma heap_range_parts_refines parts v : ∀ h cur m,
  represents h (CRef cur) (VMap m) →
  match range_parts m parts v with
  | Ok m' =>
      ∃ h', Heap.range_parts h cur parts v = Ok h'
            ∧ represents h' (CRef cur) (VMap m')
            ∧ grows_below h (CRef cur) h'
  | Panic e => Heap.range_parts h cur parts v = Panic e
  end.
Proof.
  induction parts as [|part rest IH]; intros h cur m Hrep.
  { exists h. split_and!; [done..|apply grows_below_refl]. }
  destruct rest as [|p2 rest].
  { rewrite range_parts_last, heap_range_parts_last.
    destruct (negb (String.eqb v "")).
    - eexists. split; [done|]. by apply represents_store_leaf.
    - exists h. split_and!; [done..|apply grows_below_refl]. }
  (* the entry under [part] is a map: go down *)
  assert (∀ h cur m next n,
    represents h (CRef cur) (VMap m) →
    Heap.load h cur part = Some (CRef next) → m !! part = Some (VMap n) →
    match range_parts n (p2 :: rest) v with
    | Ok n' =>
        ∃ h', Heap.range_parts h next (p2 :: rest) v = Ok h'
              ∧ represents h' (CRef cur) (VMap (<[part := VMap n']> m))
              ∧ grows_below h (CRef cur) h'
    | Panic e => Heap.range_parts h next (p2 :: rest) v = Panic e
    end) as Hdown.
  { clear h cur m Hrep. intros h cur m next n Hrep Hc Hx.
    destruct (represents_children _ _ _ Hrep) as (Hcur & Hch & _).
    specialize (Hch part). rewrite Hc, Hx in Hch. destruct Hch as [Hnext Hn].
    specialize (IH h next n Hnext).
    destruct (range_parts n (p2 :: rest) v) as [n'|e]; [|done].
    destruct IH as (h' & Hrun & Hrep' & Hlen & Hsame & Hreach).
    exists h'. split; [done|].
    assert (h' !! cur = h !! cur) as Hcureq by (by apply Hsame).
    apply (represents_update h h' cur m part (CRef next) (VMap n')); try done.
    - by rewrite (heap_load_ext _ _ _ _ Hcureq).
    - intros k _. by apply heap_load_ext.
    - intros b Hb _ Hnb. apply Hsame; [done|]. by apply Hnb.
    - intros b [?|?]%Hreach; [left|by right]. by exists (CRef next). }
  rewrite range_parts_unfold, heap_range_parts_unfold. cbv zeta.
  destruct (represents_children _ _ _ Hrep) as (Hcur & Hch & _).
  specialize (Hch part).
  destruct (Heap.load h cur part) as [c|] eqn:Ec, (m !! part) as [x|] eqn:Ex;
    try done.
  - rewrite Ec, Ex. destruct Hch as [(Hshape & _ & _) _].
    specialize (Hshape []). simpl in Hshape.
    destruct c as [s|l|next], x as [s'|l'|n]; try done.
    specialize (Hdown h cur m next n Hrep Ec Ex).
    by destruct (range_parts n (p2 :: rest) v).
  - destruct (represents_make_child h cur m part Hrep Ec) as (Hrep1 & Hgrow1 & Hload1).
    rewrite Hload1, lookup_insert_eq.
    pose proof (Hdown _ cur _ (length h) ∅ Hrep1 Hload1 (lookup_insert_eq _ _ _)) as H.
    destruct (range_parts ∅ (p2 :: rest) v) as [n'|e]; [|done].
    destruct H as (h' & Hrun & Hrep' & Hgrow').
    exists h'. split_and!; [done..|]. by apply (grows_below_trans _ _ _ _ Hgrow1).
Qed.

Lemma heap_buildNestedDict_refines h dict d path v :
  represents h (CRef dict) (VMap d) →
  match buildNestedDict d path v with
  | Ok d' =>
      ∃ h', Heap.buildNestedDict h dict path v = Ok h'
            ∧ represents h' (CRef dict) (VMap d')
            ∧ grows_below h (CRef dict) h'
  | Panic e => Heap.buildNestedDict h dict path v = Panic e
  end.
Proof.
  intros Hrep. unfold buildNestedDict, Heap.buildNestedDict.
  destruct (is_reserved path).
  - eexists. split; [done|]. by apply represents_store_leaf.
  - by apply heap_range_parts_refines.
Qed.

Lemma heap_range_row_refines headers row : ∀ h payload d i,
  represents h (CRef payload) (VMap d) →
  match range_row d headers i row with
  | Ok d' =>
      ∃ h', Heap.range_row h payload headers i row = Ok h'
            ∧ represents h' (CRef payload) (VMap d')
            ∧ grows_below h (CRef payload) h'
  | Panic e => Heap.range_row h payload headers i row = Panic e
  end.
Proof.
  induction row as [|v row IH]; intros h payload d i Hrep.
  { exists h. split_and!; [done..|apply grows_below_refl]. }
  simpl. destruct (headers !! i) as [header|]; [|done].
  pose proof (heap_buildNestedDict_refines h payload d header v Hrep) as Hstep.
  destruct (buildNestedDict d header v) as [d1|e]; [|by rewrite Hstep].
  destruct Hstep as (h1 & -> & Hrep1 & Hgrow1).
  specialize (IH h1 payload d1 (S i) Hrep1).
  destruct (range_row d1 headers (S i) row) as [d'|e]; [|done].
  destruct IH as (h' & Hrun & Hrep' & Hgrow').
  exists h'. split_and!; [done..|]. by apply (grows_below_trans _ _ _ _ Hgrow1).
Qed.

Lemma represents_fresh h : represents (h ++ [∅]) (CRef (length h)) (VMap ∅).
Proof.
  apply represents_intro.
  - rewrite length_app. simpl. lia.
  - intros k. unfold Heap.load. rewrite list_lookup_middle by done. simpl.
    by rewrite !lookup_empty.
  - intros k1 k2 c1 c2 b _ H1. unfold Heap.load in H1.
    rewrite list_lookup_middle in H1 by done. simpl in H1.
    by rewrite lookup_empty in H1.
Qed.

Lemma heap_reach_fresh h b : Heap.reach (h ++ [∅]) (CRef (length h)) b → b = length h.
Proof.
  intros [->|(k & c & Hc & _)]%heap_reach_inv; [done|].
  unfold Heap.load in Hc. rewrite list_lookup_middle in Hc by done. simpl in Hc.
  by rewrite lookup_empty in Hc.
Qed.

(** The run for a row in any store: it gives the record the function over
    records gives, in a map object of its own, and leaves every object that
    was in the store as it was. *)
Lemma heap_flatten_row_refines h headers row :
  match flatten_row headers row with
  | Ok r =>
      ∃ h', Heap.flatten_row h headers row = Ok (h', length h)
            ∧ represents h' (CRef (length h)) (VMap r)
            ∧ h `prefix_of` h'
  | Panic e => Heap.flatten_row h headers row = Panic e
  end.
Proof.
  unfold flatten_row, Heap.flatten_row. simpl.
  pose proof (heap_range_row_refines headers row (h ++ [∅]) (length h) ∅ 0
                (represents_fresh h)) as H.
  destruct (range_row ∅ headers 0 row) as [r|e]; [|by rewrite H].
  destruct H as (h' & -> & Hrep & Hlen & Hsame & _).
  exists h'. split_and!; [done..|].
  rewrite length_app in Hlen. simpl in Hlen.
  exists (drop (length h) h'). rewrite <- (take_drop (length h) h') at 1.
  f_equal. apply list_eq. intros b.
  destruct (decide (b < length h)%nat) as [Hb|Hb].
  - rewrite lookup_take_lt by done. rewrite Hsame.
    + by rewrite lookup_app_l.
    + rewrite length_app. simpl. lia.
    + intros ->%heap_reach_fresh. lia.
  - rewrite lookup_take_ge by lia. symmetry. apply lookup_ge_None. lia.
Qed.

Example heap_flatten_ab_ac :
  Heap.flatten_row [] ["a.b"; "a.c"] ["x"; "y"]
  = Ok ([ {[ "a" := CRef 1 ]}; <["c" := CStr "y"]> {[ "b" := CStr "x" ]} ], 0).
Proof. vm_compute. reflexivity. Qed.

Example heap_flatten_twice :
  Heap.flatten_row [ {[ "a" := CRef 1 ]}; {[ "b" := CStr "x" ]} ] ["a.b"] ["x"]
  = Ok ([ {[ "a" := CRef 1 ]}; {[ "b" := CStr "x" ]};
          {[ "a" := CRef 3 ]}; {[ "b" := CStr "x" ]} ], 2).
Proof. vm_compute. reflexivity. Qed.

Example flatten_row_longer_row :
  flatten_row ["a"] ["x"; "y"] = Panic IndexOutOfRange.
Proof. vm_compute. reflexivity. Qed.

Example flatten_row_leaf_in_the_way :
  flatten_row ["a"; "a.b"] ["x"; "y"] = Panic TypeAssertion
  ∧ flatten_row ["payment_methods"; "payment_methods.a"] [""; "y"]
    = Panic TypeAssertion.
Proof. split; vm_compute; reflexivity. Qed.

(** C9.  Flattening is a function of (headers, row) alone.  Run in any store
    of map objects, the code returns a new object holding exactly the record
    that the function [flatten_row] gives for (headers, row), or panics as
    that function does, and no object that existed before is changed.  Run
    twice in a row, it gives two distinct objects that read alike at every
    position, and the second run leaves the first record as it was. *)
Theorem flatten_row_pure_function h headers row :
  match flatten_row headers row with
  | Ok r =>
      ∃ h', Heap.flatten_row h headers row = Ok (h', length h)
            ∧ represents h' (CRef (length h)) (VMap r)
            ∧ h `prefix_of` h'
  | Panic e => Heap.flatten_row h headers row = Panic e
  end
  ∧ ∀ h1 a1 h2 a2,
      Heap.flatten_row h headers row = Ok (h1, a1) →
      Heap.flatten_row h1 headers row = Ok (h2, a2) →
      a1 ≠ a2
      ∧ h `prefix_of` h1 ∧ h1 `prefix_of` h2
      ∧ (∃ r, flatten_row headers row = Ok r
              ∧ reads_as h1 (CRef a1) (VMap r)
              ∧ reads_as h2 (CRef a1) (VMap r)
              ∧ reads_as h2 (CRef a2) (VMap r))
      ∧ ∀ q, shape_of_cell <$> Heap.get_path h2 (CRef a1) q
             = shape_of_cell <$> Heap.get_path h2 (CRef a2) q.
Proof.
  split; [apply heap_flatten_row_refines|].
  intros h1 a1 h2 a2 Hrun1 Hrun2.
  pose proof (heap_flatten_row_refines h headers row) as H1.
  pose proof (heap_flatten_row_refines h1 headers row) as H2.
  destruct (flatten_row headers row) as [r|e]; [|congruence].
  destruct H1 as (h1' & E1 & Hrep1 & Hpre1).
  destruct H2 as (h2' & E2 & Hrep2 & Hpre2).
  rewrite Hrun1 in E1. injection E1 as <- ->.
  rewrite Hrun2 in E2. injection E2 as <- ->.
  destruct Hrep1 as (Hread1 & _ & Hstore1). destruct Hrep2 as (Hread2 & _ & _).
  assert (length h < length h1)%nat as Hlt by apply Hstore1, heap_reach_refl.
  assert (∀ q, Heap.get_path h2 (CRef (length h)) q
               = Heap.get_path h1 (CRef (length h)) q) as Hkept.
  { intros q. apply heap_get_path_ext. intros b Hb%Hstore1.
    symmetry. by apply prefix_lookup_lt. }
  split_and!; [lia|done|done| |].
  - exists r. split_and!; [done..| |done]. intros q. by rewrite Hkept.
  - intros q. by rewrite Hkept, Hread1, Hread2.
Qed.

(** * Further properties of the flattening *)

Lemma buildNestedDict_leaf_origin d path v d' q x :
  buildNestedDict d path v = Ok d' →
  lookup_path d' q = Some x → is_leaf x = true →
  lookup_path d q = Some x
  ∨ (q = parts_of path ∧ writes_leaf path v = true ∧ x = leaf_of path v).
Proof.
  intros H Hx Hl.
  destruct (buildNestedDict_leaves _ _ _ _ _ _ H Hx Hl) as [?|[-> W]]; [by left|].
  right. split_and!; [done..|].
  rewrite (buildNestedDict_written _ _ _ _ W H) in Hx. by injection Hx.
Qed.

Lemma range_row_leaf_origin headers row : ∀ payload i r q x,
  range_row payload headers i row = Ok r →
  lookup_path r q = Some x → is_leaf x = true →
  lookup_path payload q = Some x
  ∨ ∃ j h v, headers !! (i + j) = Some h ∧ row !! j = Some v
             ∧ writes_leaf h v = true ∧ q = parts_of h ∧ x = leaf_of h v.
Proof.
  induction row as [|v row IH]; intros payload i r q x H Hx Hl.
  { injection H as <-. by left. }
  apply range_row_cons_inv in H as (h & payload' & Hh & Hstep & H).
  destruct (IH _ _ _ _ _ H Hx Hl) as [Hx'|(j & h' & v' & Hj & Hv' & W & -> & ->)].
  - destruct (buildNestedDict_leaf_origin _ _ _ _ _ _ Hstep Hx' Hl)
      as [?|(-> & W & ->)]; [by left|].
    right. exists 0, h, v. by rewrite Nat.add_0_r.
  - right. exists (S j), h', v'. by rewrite Nat.add_succ_r.
Qed.

(** Every leaf of the flattened record is the value of a cell of the row, at
    the path of that cell's header: a string leaf is the cell itself, a list
    leaf the cell split on ",". *)
Lemma flatten_row_leaf_from_cell headers row r q x :
  flatten_row headers row = Ok r →
  lookup_path r q = Some x → is_leaf x = true →
  ∃ j h v, headers !! j = Some h ∧ row !! j = Some v
           ∧ writes_leaf h v = true ∧ q = parts_of h ∧ x = leaf_of h v.
Proof.
  intros H Hx Hl.
  destruct (range_row_leaf_origin _ _ _ _ _ _ _ H Hx Hl) as [Hempty|?]; [|done].
  destruct q; [by injection Hempty as <-|]. by rewrite lookup_path_empty in Hempty.
Qed.

(** Nothing is made up: every leaf of the flattened record is the value of
    a cell of the row, at the path of that cell's header; a string leaf is
    the cell itself, a list leaf the cell split on ",". *)
Theorem flatten_row_leaf_origin headers row r q x :
  flatten_row headers row = Ok r →
  lookup_path r q = Some x → is_leaf x = true →
  ∃ j h v, headers !! j = Some h ∧ row !! j = Some v
           ∧ writes_leaf h v = true ∧ q = parts_of h ∧ x = leaf_of h v.
Proof. apply flatten_row_leaf_from_cell. Qed.

Lemma flatten_row_leaf_origin_witness :
  ∃ j h v, ["a.b"; "payment_methods"] !! j = Some h ∧ ["x"; "p,q"] !! j = Some v
           ∧ writes_leaf h v = true ∧ ["a"; "b"] = parts_of h ∧ VStr "x" = leaf_of h v.
Proof.
  apply (flatten_row_leaf_origin ["a.b"; "payment_methods"] ["x"; "p,q"]
           (<["payment_methods" := VList ["p"; "q"]]>
              {[ "a" := VMap {[ "b" := VStr "x" ]} ]})).
  - vm_compute. reflexivity.
  - vm_compute. reflexivity.
  - reflexivity.
Defined.

(** A string stored under a key of the flattened record, at any depth, is
    never empty.  The record can still hold empty strings, but only as
    elements of the list under a reserved key, which is the cell of that
    header split on ",": an empty cell gives [""], and "bank,,card," gives
    ["bank", "", "card", ""]. *)
Theorem flatten_row_empty_strings_only_in_lists headers row r q :
  flatten_row headers row = Ok r →
  (∀ s, lookup_path r q = Some (VStr s) → s ≠ "")
  ∧ (∀ l, lookup_path r q = Some (VList l) →
       ∃ j h v, headers !! j = Some h ∧ row !! j = Some v
                ∧ is_reserved h = true ∧ q = [h] ∧ l = Strings.Split v comma)
  ∧ flatten_row ["payment_methods"] ["bank,,card,"]
    = Ok {[ "payment_methods" := VList ["bank"; ""; "card"; ""] ]}
  ∧ flatten_row ["payment_methods"] [""] = Ok {[ "payment_methods" := VList [""] ]}.
Proof.
  intros H. split_and!; [| |vm_compute; reflexivity..].
  - intros s Hx.
    destruct (flatten_row_leaf_from_cell _ _ _ _ _ H Hx eq_refl)
      as (j & h & v & _ & _ & W & _ & E).
    unfold leaf_of, writes_leaf in *. destruct (is_reserved h); [done|].
    injection E as ->. simpl in W. by apply negb_true_iff, String.eqb_neq in W.
  - intros l Hx.
    destruct (flatten_row_leaf_from_cell _ _ _ _ _ H Hx eq_refl)
      as (j & h & v & Hj & Hv & _ & -> & E).
    unfold leaf_of in E. destruct (is_reserved h) eqn:R; [|done].
    injection E as ->. exists j, h, v. by rewrite reserved_parts.
Qed.

Lemma flatten_row_empty_strings_only_in_lists_witness :
  flatten_row ["a.b"; "transfer_methods"] ["x"; ""]
  = Ok (<["transfer_methods" := VList [""]]> {[ "a" := VMap {[ "b" := VStr "x" ]} ]})
  ∧ (∀ s, lookup_path
            (<["transfer_methods" := VList [""]]> {[ "a" := VMap {[ "b" := VStr "x" ]} ]})
            ["a"; "b"] = Some (VStr s) → s ≠ "").
Proof.
  assert (flatten_row ["a.b"; "transfer_methods"] ["x"; ""]
          = Ok (<["transfer_methods" := VList [""]]>
                  {[ "a" := VMap {[ "b" := VStr "x" ]} ]})) as H
    by (vm_compute; reflexivity).
  split; [exact H|].
  exact (proj1 (flatten_row_empty_strings_only_in_lists _ _ _ ["a"; "b"] H)).
Defined.

(** A list occurs in the flattened record only directly under one of the two
    reserved keys at the top, and it has at least one element. *)
Theorem flatten_row_lists_reserved_only headers row r q l :
  flatten_row headers row = Ok r → lookup_path r q = Some (VList l) →
  (∃ path, q = [path] ∧ is_reserved path = true) ∧ l ≠ [].
Proof.
  intros H Hx.
  destruct (flatten_row_leaf_from_cell _ _ _ _ _ H Hx eq_refl)
    as (j & h & v & _ & _ & _ & -> & E).
  unfold leaf_of in E. destruct (is_reserved h) eqn:R; [|done].
  injection E as ->. split; [|apply Split_nonempty].
  exists h. by rewrite reserved_parts.
Qed.

Lemma flatten_row_lists_reserved_only_witness :
  (∃ path, ["transfer_methods"] = [path] ∧ is_reserved path = true) ∧ [""] ≠ [].
Proof.
  apply (flatten_row_lists_reserved_only ["transfer_methods"] [""]
           {[ "transfer_methods" := VList [""] ]}).
  - vm_compute. reflexivity.
  - vm_compute. reflexivity.
Defined.

Lemma strict_prefix_of_prefix (q w p : list string) :
  q `prefix_of` w → strict_prefix w p → strict_prefix q p.
Proof.
  intros Hq Hw. destruct (decide (q = w)) as [->|Hne]; [done|].
  by apply (strict_prefix_trans _ w).
Qed.

(** A pair that is processed without a panic found no leaf on its way. *)
Lemma buildNestedDict_ok_no_leaf_on_way d h v d' q x :
  buildNestedDict d h v = Ok d' → strict_prefix q (parts_of h) →
  lookup_path d q = Some x → is_leaf x = false.
Proof.
  intros H Hq Hx. destruct (is_leaf x) eqn:Hl; [exfalso|done].
  destruct (is_reserved h) eqn:R.
  - rewrite (reserved_parts _ R) in Hq.
    apply strict_prefix_cons_inv in Hq as [->|(q' & -> & [Hq Hne])].
    + by injection Hx as <-.
    + by apply prefix_nil_inv in Hq.
  - rewrite buildNestedDict_plain in H by done.
    by rewrite (range_parts_panic _ v d q x) in H.
Qed.

(** A leaf written once stays in the way: after any further pair there is
    still a leaf at the path or above it. *)
Lemma buildNestedDict_keeps_leaf_above d h v d' w :
  buildNestedDict d h v = Ok d' →
  (∃ q x, q `prefix_of` w ∧ lookup_path d q = Some x ∧ is_leaf x = true) →
  ∃ q x, q `prefix_of` w ∧ lookup_path d' q = Some x ∧ is_leaf x = true.
Proof.
  intros H (q & x & Hq & Hx & Hl).
  assert (is_leaf (leaf_of h v) = true) as Hleaf.
  { unfold leaf_of. by destruct (is_reserved h). }
  destruct (path_trichotomy q (parts_of h)) as [->|[Hs|[[[r ->] Hne]|Hd]]].
  - destruct (writes_leaf h v) eqn:W.
    + exists (parts_of h), (leaf_of h v).
      by rewrite (buildNestedDict_written _ _ _ _ W H).
    + exists (parts_of h), x. split_and!; [done| |done].
      pose proof (buildNestedDict_not_written _ _ _ _ [] W H) as E.
      rewrite app_nil_r in E. by rewrite E.
  - by rewrite (buildNestedDict_ok_no_leaf_on_way _ _ _ _ _ _ H Hs Hx) in Hl.
  - destruct (writes_leaf h v) eqn:W.
    + exists (parts_of h), (leaf_of h v). split_and!; [|by apply (buildNestedDict_written d)|done].
      etrans; [|done]. by apply prefix_app_r.
    + exists (parts_of h ++ r), x. split_and!; [done| |done].
      by rewrite (buildNestedDict_not_written _ _ _ _ r W H).
  - exists q, x. split_and!; [done| |done].
    by rewrite (buildNestedDict_frame_path _ _ _ _ _ H Hd).
Qed.

Lemma range_row_ok_no_collision headers row : ∀ payload i written r,
  range_row payload headers i row = Ok r →
  (∀ w, w ∈ written →
        ∃ q x, q `prefix_of` w ∧ lookup_path payload q = Some x ∧ is_leaf x = true) →
  (length row ≤ length (drop i headers))%nat
  ∧ no_collision_from written (drop i headers) row = true.
Proof.
  induction row as [|v row IH]; intros payload i written r H Hw.
  { split; [simpl; lia|]. by destruct (drop i headers). }
  apply range_row_cons_inv in H as (h & payload' & Hh & Hstep & H).
  rewrite (drop_S _ _ _ Hh). simpl.
  destruct (IH payload' (S i)
              (if writes_leaf h v then parts_of h :: written else written) r H)
    as [Hlen Hnc].
  { intros w Hin.
    assert (w ∈ written → ∃ q x, q `prefix_of` w ∧ lookup_path payload' q = Some x
                                 ∧ is_leaf x = true) as Hold.
    { intros Hin'. apply (buildNestedDict_keeps_leaf_above _ _ _ _ _ Hstep).
      by apply Hw. }
    destruct (writes_leaf h v) eqn:W; [|by apply Hold].
    apply elem_of_cons in Hin as [->|Hin]; [|by apply Hold].
    exists (parts_of h), (leaf_of h v). split_and!; [done| |].
    - by apply (buildNestedDict_written payload).
    - unfold leaf_of. by destruct (is_reserved h). }
  split; [lia|]. rewrite Hnc, andb_true_r. apply forallb_forall.
  intros w (q & x & Hq & Hx & Hl)%list_elem_of_In%Hw. apply negb_true_iff.
  destruct (strict_prefixb w (parts_of h)) eqn:E; [|done].
  apply strict_prefixb_spec in E.
  pose proof (strict_prefix_of_prefix _ _ _ Hq E) as Hs.
  by rewrite (buildNestedDict_ok_no_leaf_on_way _ _ _ _ _ _ Hstep Hs Hx) in Hl.
Qed.

(** The flattening of a row returns a record exactly when the row is no
    longer than the header list and no leaf written for an earlier cell sits
    at an intermediate segment of a later header with a cell; otherwise it
    panics. *)
Lemma flatten_row_succeeds_iff headers row :
  (∃ r, flatten_row headers row = Ok r) ↔
  (length row ≤ length headers)%nat ∧ no_collision headers row = true.
Proof.
  split.
  - intros [r H].
    destruct (range_row_ok_no_collision headers row ∅ 0 [] r H) as [Hlen Hnc].
    { by intros w ?%elem_of_nil. }
    by rewrite drop_0 in Hlen, Hnc.
  - intros [Hlen Hnc]. apply (range_row_total headers row ∅ 0 []).
    + simpl. lia.
    + by rewrite drop_0.
    + intros q x Hx Hl. destruct q; [by injection Hx as <-|].
      by rewrite lookup_path_empty in Hx.
Qed.

(** The flattening of a row returns a record exactly when the row is no
    longer than the header list and no leaf written for an earlier cell sits
    at an intermediate segment of a later header that has a cell; otherwise
    it panics. *)
Theorem flatten_row_ok_iff headers row :
  (∃ r, flatten_row headers row = Ok r) ↔
  (length row ≤ length headers)%nat ∧ no_collision headers row = true.
Proof. apply flatten_row_succeeds_iff. Qed.

Lemma range_row_take headers row : ∀ payload i,
  range_row payload headers i row
  = range_row payload (take (i + length row) headers) i row.
Proof.
  induction row as [|v row IH]; intros payload i; [done|]. simpl.
  destruct (decide (i < length headers)%nat) as [Hi|Hi].
  - rewrite lookup_take_lt by lia.
    destruct (headers !! i) as [h|]; [|done].
    destruct (buildNestedDict payload h v); [|done].
    rewrite IH. by rewrite Nat.add_succ_r.
  - rewrite (lookup_ge_None_2 headers i) by lia.
    rewrite lookup_ge_None_2; [done|]. rewrite length_take. lia.
Qed.

(** Headers beyond the last cell of the row play no part. *)
Theorem flatten_row_ignores_headers_without_cell headers row :
  flatten_row headers row = flatten_row (take (length row) headers) row.
Proof. unfold flatten_row. by rewrite range_row_take. Qed.

Lemma range_row_app headers row1 row2 : ∀ payload i,
  range_row payload headers i (row1 ++ row2)
  = match range_row payload headers i row1 with
    | Ok payload' => range_row payload' headers (i + length row1) row2
    | Panic e => Panic e
    end.
Proof.
  induction row1 as [|v row1 IH]; intros payload i; simpl.
  { by rewrite Nat.add_0_r. }
  destruct (headers !! i) as [h|]; [|done].
  destruct (buildNestedDict payload h v); [|done].
  rewrite IH. by rewrite Nat.add_succ_r.
Qed.

(** A row with more cells than there are headers never gives a record: once
    the cells that have a header are processed, indexing the header list
    panics (unless a collision among those cells has panicked before). *)
Theorem flatten_row_row_too_long headers row :
  (length headers < length row)%nat →
  match flatten_row headers (take (length headers) row) with
  | Ok _ => flatten_row headers row = Panic IndexOutOfRange
  | Panic e => flatten_row headers row = Panic e
  end.
Proof.
  intros Hlen. unfold flatten_row.
  assert (range_row ∅ headers 0 row
          = match range_row ∅ headers 0 (take (length headers) row) with
            | Ok payload' =>
                range_row payload' headers (0 + length (take (length headers) row))
                  (drop (length headers) row)
            | Panic e => Panic e
            end) as ->.
  { rewrite <- range_row_app. by rewrite take_drop. }
  destruct (range_row ∅ headers 0 (take (length headers) row)); [|done].
  rewrite length_take, Nat.min_l by lia. simpl.
  destruct (drop (length headers) row) as [|v rest] eqn:E.
  - apply (f_equal length) in E. rewrite length_drop in E. simpl in E. lia.
  - simpl. by rewrite lookup_ge_None_2 by lia.
Qed.

Lemma flatten_row_row_too_long_witness :
  flatten_row ["a"] ["x"; "y"] = Panic IndexOutOfRange.
Proof.
  assert (length ["a"] < length ["x"; "y"])%nat as Hlen by (simpl; lia).
  exact (flatten_row_row_too_long ["a"] ["x"; "y"] Hlen).
Defined.

(** * Reading the account name and the bank country back *)

Lemma getAccountName_lookup d :
  getAccountName d
  = match lookup_path d ["beneficiary"; "bank_details"; "account_name"] with
    | Some (VStr s) => s
    | _ => ""
    end.
Proof.
  unfold getAccountName, lookup_path. simpl.
  destruct (d !! "beneficiary") as [[?|?|b]|]; try done.
  destruct (b !! "bank_details") as [[?|?|bd]|]; try done.
  by destruct (bd !! "account_name") as [[?|?|?]|].
Qed.

Lemma getBankCountry_lookup d :
  getBankCountry d
  = match lookup_path d ["beneficiary"; "bank_details"; "bank_country_code"] with
    | Some (VStr s) => s
    | _ => ""
    end.
Proof.
  unfold getBankCountry, lookup_path. simpl.
  destruct (d !! "beneficiary") as [[?|?|b]|]; try done.
  destruct (b !! "bank_details") as [[?|?|bd]|]; try done.
  by destruct (bd !! "bank_country_code") as [[?|?|?]|].
Qed.

Lemma nonempty_writes_leaf h v : v ≠ "" → writes_leaf h v = true.
Proof.
  intros Hv%String.eqb_neq. unfold writes_leaf. rewrite Hv. apply orb_true_r.
Qed.

(** What is put in is read back: with collision-free headers, the account
    name (the bank country) read from the flattened record is the last
    non-empty cell of the column "beneficiary.bank_details.account_name"
    ("beneficiary.bank_details.bank_country_code"). *)
Theorem bank_details_round_trip headers row r j v :
  collision_free headers = true → flatten_row headers row = Ok r →
  row !! j = Some v → v ≠ "" →
  (headers !! j = Some "beneficiary.bank_details.account_name" →
   (∀ k v', (j < k)%nat →
      headers !! k = Some "beneficiary.bank_details.account_name" →
      row !! k = Some v' → v' = "") →
   getAccountName r = v)
  ∧ (headers !! j = Some "beneficiary.bank_details.bank_country_code" →
     (∀ k v', (j < k)%nat →
        headers !! k = Some "beneficiary.bank_details.bank_country_code" →
        row !! k = Some v' → v' = "") →
     getBankCountry r = v).
Proof.
  intros Hfree H Hv Hne.
  split; intros Hj Hlater;
    [rewrite getAccountName_lookup | rewrite getBankCountry_lookup].
  - pose proof (range_row_last_write headers Hfree row ∅ 0 r j _ v H Hj Hv
                  (nonempty_writes_leaf _ _ Hne)) as E.
    change (parts_of "beneficiary.bank_details.account_name")
      with ["beneficiary"; "bank_details"; "account_name"] in E.
    rewrite E; [done|].
    intros k v' Hk Hhk Hvk. rewrite (Hlater k v' Hk Hhk Hvk). reflexivity.
  - pose proof (range_row_last_write headers Hfree row ∅ 0 r j _ v H Hj Hv
                  (nonempty_writes_leaf _ _ Hne)) as E.
    change (parts_of "beneficiary.bank_details.bank_country_code")
      with ["beneficiary"; "bank_details"; "bank_country_code"] in E.
    rewrite E; [done|].
    intros k v' Hk Hhk Hvk. rewrite (Hlater k v' Hk Hhk Hvk). reflexivity.
Qed.

Lemma bank_details_round_trip_witness :
  getAccountName
    {[ "beneficiary" := VMap {[ "bank_details" :=
         VMap (<["bank_country_code" := VStr "GB"]> {[ "account_name" := VStr "Ann" ]}) ]} ]}
  = "Ann".
Proof.
  assert (collision_free ["beneficiary.bank_details.account_name";
                          "beneficiary.bank_details.bank_country_code"] = true)
    as Hfree by (vm_compute; reflexivity).
  assert ("Ann" ≠ "") as Hne by discriminate.
  apply (proj1 (bank_details_round_trip _ ["Ann"; "GB"] _ 0 "Ann" Hfree
                  ltac:(vm_compute; reflexivity) eq_refl Hne)).
  - reflexivity.
  - intros [|[|k]] v' Hk Hh Hv; [lia|discriminate Hh|discriminate Hh].
Defined.

(** Without a non-empty cell in its column (no such column, or only empty
    cells), the account name (the bank country) read back is the empty
    string. *)
Theorem bank_details_absent headers row r :
  flatten_row headers row = Ok r →
  ((∀ j v, headers !! j = Some "beneficiary.bank_details.account_name" →
           row !! j = Some v → v = "") →
   getAccountName r = "")
  ∧ ((∀ j v, headers !! j = Some "beneficiary.bank_details.bank_country_code" →
             row !! j = Some v → v = "") →
     getBankCountry r = "").
Proof.
  intros H.
  split; intros Hempty;
    [rewrite getAccountName_lookup | rewrite getBankCountry_lookup].
  - destruct (lookup_path r _) as [[s| |]|] eqn:E; try done.
    destruct (flatten_row_leaf_from_cell _ _ _ _ _ H E eq_refl)
      as (j & h & v & Hj & Hv & W & Hq & Hx).
    apply (parts_of_inj "beneficiary.bank_details.account_name") in Hq as <-.
    rewrite (Hempty j v Hj Hv) in W. discriminate W.
  - destruct (lookup_path r _) as [[s| |]|] eqn:E; try done.
    destruct (flatten_row_leaf_from_cell _ _ _ _ _ H E eq_refl)
      as (j & h & v & Hj & Hv & W & Hq & Hx).
    apply (parts_of_inj "beneficiary.bank_details.bank_country_code") in Hq as <-.
    rewrite (Hempty j v Hj Hv) in W. discriminate W.
Qed.

Lemma bank_details_absent_witness :
  getAccountName {[ "a" := VStr "x" ]} = "".
Proof.
  apply (proj1 (bank_details_absent ["a"; "beneficiary.bank_details.account_name"]
                  ["x"; ""] _ ltac:(vm_compute; reflexivity))).
  intros [|[|j]] v Hh Hv; [discriminate Hh| |discriminate Hh].
  by injection Hv as <-.
Defined.

(** A pair whose header's path parts from the path of the account name (of
    the bank country) leaves what is read back unchanged; so the two columns
    never disturb each other, and no column outside "beneficiary" disturbs
    either. *)
Theorem bank_details_frame d h v d' :
  buildNestedDict d h v = Ok d' →
  (diverge ["beneficiary"; "bank_details"; "account_name"] (parts_of h) →
   getAccountName d' = getAccountName d)
  ∧ (diverge ["beneficiary"; "bank_details"; "bank_country_code"] (parts_of h) →
     getBankCountry d' = getBankCountry d)
  ∧ (parts_of h !! 0 ≠ Some "beneficiary" →
     getAccountName d' = getAccountName d ∧ getBankCountry d' = getBankCountry d).
Proof.
  intros H.
  assert (∀ q, diverge q (parts_of h) → lookup_path d' q = lookup_path d q) as Hframe.
  { intros q. by apply (buildNestedDict_frame_path d h v). }
  assert (∀ k rest, parts_of h !! 0 ≠ Some k → diverge (k :: rest) (parts_of h)) as Htop.
  { intros k rest Hk. pose proof (parts_of_nonempty h) as Hne.
    destruct (parts_of h) as [|k' p]; [done|].
    split; intros Hp%prefix_cons_inv_1; simpl in Hk; congruence. }
  split_and!.
  - intros Hd. by rewrite !getAccountName_lookup, Hframe.
  - intros Hd. by rewrite !getBankCountry_lookup, Hframe.
  - intros Hk. rewrite !getAccountName_lookup, !getBankCountry_lookup.
    by rewrite !Hframe by by apply Htop.
Qed.

Lemma bank_details_frame_witness :
  getAccountName
    {[ "beneficiary" := VMap {[ "bank_details" :=
         VMap (<["bank_country_code" := VStr "GB"]> {[ "account_name" := VStr "Ann" ]}) ]} ]}
  = getAccountName
      {[ "beneficiary" := VMap {[ "bank_details" :=
           VMap {[ "account_name" := VStr "Ann" ]} ]} ]}.
Proof.
  assert (buildNestedDict
            {[ "beneficiary" := VMap {[ "bank_details" :=
                 VMap {[ "account_name" := VStr "Ann" ]} ]} ]}
            "beneficiary.bank_details.bank_country_code" "GB"
          = Ok {[ "beneficiary" := VMap {[ "bank_details" :=
                 VMap (<["bank_country_code" := VStr "GB"]>
                         {[ "account_name" := VStr "Ann" ]}) ]} ]}) as H
    by (vm_compute; reflexivity).
  apply (proj1 (bank_details_frame _ _ _ _ H)).
  split; intros Hp; apply (bool_decide_pack _) in Hp; vm_compute in Hp; done.
Defined.

(** * The token line of [.env] *)

Lemma HasPrefix_token_line token :
  Env.HasPrefix (Env.token_key +:+ token) Env.token_key = true.
Proof.
  unfold Env.HasPrefix. generalize Env.token_key. intros s.
  induction s as [|a s IH]; simpl; [by destruct token|].
  destruct (ascii_dec a a); [done|congruence].
Qed.

Lemma set_token_line_found pre line post token :
  Forall (λ l, Env.HasPrefix l Env.token_key = false) pre →
  Env.HasPrefix line Env.token_key = true →
  Env.set_token_line (pre ++ line :: post) token
  = (pre ++ (Env.token_key +:+ token) :: post, true).
Proof.
  intros Hpre Hline. induction Hpre as [|l pre Hl _ IH]; simpl.
  - by rewrite Hline.
  - by rewrite Hl, IH.
Qed.

Lemma set_token_line_not_found lines token :
  Forall (λ l, Env.HasPrefix l Env.token_key = false) lines →
  Env.set_token_line lines token = (lines, false).
Proof.
  intros Hl. induction Hl as [|l lines Hl _ IH]; simpl; [done|].
  by rewrite Hl, IH.
Qed.

(** The lines either have a first one that starts with the key, or none. *)
Lemma token_line_cases (lines : list string) :
  (∃ pre line post, lines = pre ++ line :: post
     ∧ Forall (λ l, Env.HasPrefix l Env.token_key = false) pre
     ∧ Env.HasPrefix line Env.token_key = true)
  ∨ Forall (λ l, Env.HasPrefix l Env.token_key = false) lines.
Proof.
  induction lines as [|l lines IH]; [by right|].
  destruct (Env.HasPrefix l Env.token_key) eqn:E.
  - left. exists [], l, lines. by repeat split.
  - destruct IH as [(pre & line & post & -> & Hpre & Hline)|Hnone].
    + left. exists (l :: pre), line, post. split_and!; [done| |done].
      by constructor.
    + right. by constructor.
Qed.

Lemma update_env_found envContent token pre line post :
  Strings.Split envContent Env.newline = pre ++ line :: post →
  Forall (λ l, Env.HasPrefix l Env.token_key = false) pre →
  Env.HasPrefix line Env.token_key = true →
  Env.update_env envContent token
  = Strings.Join (pre ++ (Env.token_key +:+ token) :: post) Env.newline.
Proof.
  intros E Hpre Hline. unfold Env.update_env.
  by rewrite E, (set_token_line_found _ _ _ _ Hpre Hline).
Qed.

Lemma update_env_not_found envContent token :
  Forall (λ l, Env.HasPrefix l Env.token_key = false)
    (Strings.Split envContent Env.newline) →
  Env.update_env envContent token
  = Strings.Join (Strings.Split envContent Env.newline ++ [Env.token_key +:+ token])
      Env.newline.
Proof.
  intros Hnone. unfold Env.update_env.
  by rewrite (set_token_line_not_found _ _ Hnone).
Qed.

Lemma Index_append_None sep (a b : string) :
  Strings.Index a sep = None → Strings.Index b sep = None →
  Strings.Index (a +:+ b) sep = None.
Proof.
  intros Ha Hb. induction a as [|x a IH]; [done|].
  change (Strings.Index (String x (a +:+ b)) sep = None).
  simpl in *. destruct (Ascii.eqb x sep); [done|].
  destruct (Strings.Index a sep); [done|]. by rewrite IH.
Qed.

Lemma token_line_no_newline token :
  Strings.Index token Env.newline = None →
  Strings.Index (Env.token_key +:+ token) Env.newline = None.
Proof. intros H. by apply Index_append_None. Qed.

(** When no line of the text starts with the key, the token line is added
    after the text, behind a line break (also when the text is empty or ends
    in a line break, which leaves an empty line before it). *)
Theorem update_env_appends envContent token :
  Forall (λ l, Env.HasPrefix l Env.token_key = false)
    (Strings.Split envContent Env.newline) →
  Env.update_env envContent token
  = envContent +:+ String Env.newline (Env.token_key +:+ token).
Proof.
  intros Hnone. rewrite update_env_not_found by done.
  rewrite Join_snoc by apply Split_nonempty. by rewrite Join_Split.
Qed.

Lemma update_env_appends_witness :
  Env.update_env "CLIENT_ID=abc" "tok"
  = "CLIENT_ID=abc" +:+ String Env.newline (Env.token_key +:+ "tok").
Proof.
  apply update_env_appends. vm_compute. repeat constructor.
Defined.

(** When the token holds no line break, the first line that starts with the
    key is replaced by the token line and every other line is kept as it is,
    later lines that start with the key included. *)
Lemma update_env_lines_found envContent token pre line post :
  Strings.Index token Env.newline = None →
  Strings.Split envContent Env.newline = pre ++ line :: post →
  Forall (λ l, Env.HasPrefix l Env.token_key = false) pre →
  Env.HasPrefix line Env.token_key = true →
  Strings.Split (Env.update_env envContent token) Env.newline
  = pre ++ (Env.token_key +:+ token) :: post.
Proof.
  intros Htok E Hpre Hline.
  rewrite (update_env_found _ _ _ _ _ E Hpre Hline).
  apply Split_Join; [by destruct pre|].
  pose proof (Split_pieces_no_sep Env.newline envContent) as Hall.
  rewrite E in Hall. apply Forall_app in Hall as [H1 H2].
  inversion H2; subst. apply Forall_app. split; [done|].
  constructor; [by apply token_line_no_newline | done].
Qed.

(** When the token holds no line break, the first line that starts with the
    key is replaced by the token line and every other line is kept as it is,
    later lines that start with the key included. *)
Theorem update_env_replaces_first_only envContent token pre line post :
  Strings.Index token Env.newline = None →
  Strings.Split envContent Env.newline = pre ++ line :: post →
  Forall (λ l, Env.HasPrefix l Env.token_key = false) pre →
  Env.HasPrefix line Env.token_key = true →
  Strings.Split (Env.update_env envContent token) Env.newline
  = pre ++ (Env.token_key +:+ token) :: post.
Proof. apply update_env_lines_found. Qed.

Lemma update_env_replaces_first_only_witness :
  Strings.Split
    (Env.update_env
       ("A=1" +:+ String Env.newline ("AIRWALLEX_TOKEN=old" +:+
          String Env.newline "AIRWALLEX_TOKEN=older")) "new") Env.newline
  = ["A=1"] ++ (Env.token_key +:+ "new") :: ["AIRWALLEX_TOKEN=older"].
Proof.
  apply (update_env_replaces_first_only _ "new" ["A=1"] "AIRWALLEX_TOKEN=old").
  - reflexivity.
  - vm_compute. reflexivity.
  - repeat constructor.
  - reflexivity.
Defined.

(** When the token holds no line break, the first line of the new text that
    starts with the key is the token line: a reader that takes the first
    assignment finds the new token. *)
Theorem update_env_first_token_line envContent token :
  Strings.Index token Env.newline = None →
  List.find (λ l, Env.HasPrefix l Env.token_key)
    (Strings.Split (Env.update_env envContent token) Env.newline)
  = Some (Env.token_key +:+ token).
Proof.
  intros Htok.
  assert (∀ pre rest,
    Forall (λ l, Env.HasPrefix l Env.token_key = false) pre →
    List.find (λ l, Env.HasPrefix l Env.token_key)
      (pre ++ (Env.token_key +:+ token) :: rest)
    = Some (Env.token_key +:+ token)) as Hfind.
  { intros pre rest Hpre. induction Hpre as [|l pre Hl _ IH]; cbn [List.find app].
    - by rewrite HasPrefix_token_line.
    - by rewrite Hl. }
  pose proof (Split_pieces_no_sep Env.newline envContent) as Hall.
  destruct (token_line_cases (Strings.Split envContent Env.newline))
    as [(pre & line & post & E & Hpre & Hline)|Hnone].
  - rewrite (update_env_lines_found _ _ _ _ _ Htok E Hpre Hline).
    by apply Hfind.
  - rewrite update_env_not_found by done.
    rewrite Split_Join.
    + by apply Hfind.
    + by destruct (Strings.Split envContent Env.newline).
    + apply Forall_app. split; [done|].
      repeat constructor. by apply token_line_no_newline.
Qed.

Lemma update_env_first_token_line_witness :
  List.find (λ l, Env.HasPrefix l Env.token_key)
    (Strings.Split (Env.update_env "" "tok") Env.newline)
  = Some (Env.token_key +:+ "tok").
Proof. apply update_env_first_token_line. reflexivity. Defined.

(** Putting a second token in replaces the first one and nothing else: the
    text is what it would be had only the second been put in (so putting the
    same token in twice changes nothing the second time).  The first token
    must hold no line break. *)
Theorem update_env_overwrites envContent token1 token2 :
  Strings.Index token1 Env.newline = None →
  Env.update_env (Env.update_env envContent token1) token2
  = Env.update_env envContent token2.
Proof.
  intros Htok.
  pose proof (Split_pieces_no_sep Env.newline envContent) as Hall.
  destruct (token_line_cases (Strings.Split envContent Env.newline))
    as [(pre & line & post & E & Hpre & Hline)|Hnone].
  - pose proof (update_env_lines_found _ _ _ _ _ Htok E Hpre Hline) as E1.
    rewrite (update_env_found _ token2 _ _ _ E1 Hpre (HasPrefix_token_line _)).
    by rewrite (update_env_found _ token2 _ _ _ E Hpre Hline).
  - assert (Strings.Split (Env.update_env envContent token1) Env.newline
            = Strings.Split envContent Env.newline ++ [Env.token_key +:+ token1]) as E1.
    { rewrite update_env_not_found by done. apply Split_Join.
      - by destruct (Strings.Split envContent Env.newline).
      - apply Forall_app. split; [done|].
        repeat constructor. by apply token_line_no_newline. }
    rewrite (update_env_found _ token2 _ _ _ E1 Hnone (HasPrefix_token_line _)).
    by rewrite update_env_not_found.
Qed.

Lemma update_env_overwrites_witness :
  Env.update_env (Env.update_env "CLIENT_ID=abc" "t1") "t2"
  = Env.update_env "CLIENT_ID=abc" "t2".
Proof. apply update_env_overwrites. reflexivity. Defined.

(** * The bookkeeping of [validateBeneficiaries] *)

Lemma int_wrap_small z : (- 2 ^ 63 ≤ z < 2 ^ 63)%Z → Validate.int_wrap z = z.
Proof. intros Hz. unfold Validate.int_wrap. rewrite Z.mod_small; lia. Qed.

Lemma range_result_app payload r entries : ∀ errs,
  Validate.range_result payload r errs entries
  = errs ++ ((λ fe, Validate.mkValidationError (getAccountName payload) r
                      (getBankCountry payload) fe.1 fe.2 "") <$> entries).
Proof.
  induction entries as [|[field errMsg] entries IH]; intros errs; simpl.
  - by rewrite app_nil_r.
  - by rewrite IH, <- app_assoc.
Qed.

(** What one answer adds: the payload to the successful results and no
    error, or no payload and at least one error, all for the current row. *)
Lemma check_response_cases st payload resp :
  Validate.rowNum (Validate.check_response st payload resp) = Validate.rowNum st
  ∧ ∃ S B,
      Validate.successfulResults (Validate.check_response st payload resp)
      = Validate.successfulResults st ++ S
      ∧ Validate.validationErrors (Validate.check_response st payload resp)
        = Validate.validationErrors st ++ B
      ∧ Forall (λ e, Validate.Row e = Validate.rowNum st
                     ∧ Validate.AccountName e = getAccountName payload
                     ∧ Validate.BankCountry e = getBankCountry payload
                     ∧ Validate.Params e = "") B
      ∧ (if Validate.accepted resp then S = [payload] ∧ B = []
         else S = [] ∧ B ≠ []).
Proof.
  unfold Validate.check_response, Validate.accepted.
  destruct (Validate.StatusCode resp =? 401)%Z; simpl.
  { split; [done|]. eexists [], [_]. split_and!; [by rewrite app_nil_r|done| |done..].
    by repeat constructor. }
  destruct (length (Validate.result resp) =? 0)%nat eqn:E; simpl.
  { split; [done|]. exists [payload], []. split_and!; [done|by rewrite app_nil_r|done..]. }
  split; [done|]. rewrite range_result_app. eexists [], _.
  split_and!; [by rewrite app_nil_r|done| |done|].
  - apply Forall_fmap, Forall_true. by intros [??].
  - apply Nat.eqb_neq in E. by destruct (Validate.result resp).
Qed.

Lemma failed_rows_same_row (B : list Validate.ValidationError) r :
  B ≠ [] → Forall (λ e, Validate.Row e = r) B → Validate.failed_rows B = {[ r ]}.
Proof.
  unfold Validate.failed_rows. intros Hne HB.
  induction HB as [|e B He HB IH]; [done|].
  rewrite fmap_cons, list_to_set_cons, He.
  destruct B as [|e' B].
  - by rewrite fmap_nil, list_to_set_nil, (right_id_L ∅ (∪)).
  - rewrite IH by done. by rewrite (idemp_L (∪)).
Qed.

Lemma range_rows_cons_inv headers st row answer input st' :
  Validate.range_rows headers st ((Some row, answer) :: input) = Validate.Done st' →
  length row = length headers
  ∧ ∃ payload resp, flatten_row headers row = Ok payload ∧ answer = Some resp
      ∧ Validate.range_rows headers
          (Validate.check_response
             (Validate.mkState (Validate.successfulResults st)
                (Validate.validationErrors st)
                (Validate.int_wrap (Validate.rowNum st + 1)))
             payload resp) input
        = Validate.Done st'.
Proof.
  simpl. destruct (length row =? length headers)%nat eqn:E; [|done]. simpl.
  apply Nat.eqb_eq in E.
  destruct (flatten_row headers row) as [payload|]; [|done].
  destruct answer as [resp|]; [|done]. intros H. split; [done|].
  by exists payload, resp.
Qed.

Lemma elem_of_failed_rows errs r :
  r ∈ Validate.failed_rows errs ↔ ∃ e, e ∈ errs ∧ Validate.Row e = r.
Proof.
  unfold Validate.failed_rows. rewrite elem_of_list_to_set, list_elem_of_fmap.
  split; intros (e & ? & ?); exists e; done.
Qed.

Lemma StronglySorted_same_row (B : list Validate.ValidationError) r :
  Forall (λ e, Validate.Row e = r) B → StronglySorted Z.le (Validate.Row <$> B).
Proof.
  intros HB. induction HB as [|e B He HB IH]; [constructor|].
  rewrite fmap_cons. constructor; [done|].
  apply Forall_fmap. eapply Forall_impl; [exact HB|]. simpl. intros e' ->. lia.
Qed.

(** The state of the row loop after a run to the end of the input, from any
    state whose row counter cannot overflow on the way. *)
Lemma range_rows_inv headers : ∀ input st st',
  Validate.range_rows headers st input = Validate.Done st' →
  (0 ≤ Validate.rowNum st)%Z →
  (Validate.rowNum st + Z.of_nat (length input) < 2 ^ 63)%Z →
  Validate.rowNum st' = (Validate.rowNum st + Z.of_nat (length input))%Z
  ∧ ∃ S E,
      Validate.successfulResults st' = Validate.successfulResults st ++ S
      ∧ Validate.validationErrors st' = Validate.validationErrors st ++ E
      ∧ (length S + size (Validate.failed_rows E) = length input)%nat
      ∧ StronglySorted Z.le (Validate.Row <$> E)
      ∧ Forall (λ e, Validate.Params e = "") E
      ∧ (∀ e, e ∈ E →
           (Validate.rowNum st < Validate.Row e
            ≤ Validate.rowNum st + Z.of_nat (length input))%Z)
      ∧ ∀ k row answer, input !! k = Some (Some row, answer) →
          ∃ payload resp,
            flatten_row headers row = Ok payload ∧ answer = Some resp
            ∧ length row = length headers
            ∧ (∀ e, e ∈ E →
                 Validate.Row e = (Validate.rowNum st + 1 + Z.of_nat k)%Z →
                 Validate.AccountName e = getAccountName payload
                 ∧ Validate.BankCountry e = getBankCountry payload)
            ∧ (if Validate.accepted resp
               then payload ∈ S
                    ∧ ∀ e, e ∈ E →
                        Validate.Row e ≠ (Validate.rowNum st + 1 + Z.of_nat k)%Z
               else ∃ e, e ∈ E
                    ∧ Validate.Row e = (Validate.rowNum st + 1 + Z.of_nat k)%Z).
Proof.
  induction input as [|[[row|] answer] input IH]; intros st st' H Hr Hmax; [| |done].
  { injection H as <-. split; [simpl; lia|]. exists [], [].
    rewrite !app_nil_r. split_and!; try done; [constructor|by intros e ?%elem_of_nil]. }
  apply range_rows_cons_inv in H as (Hlen & payload & resp & Hflat & -> & H).
  simpl length in *. set (r := Validate.rowNum st) in *.
  rewrite int_wrap_small in H by lia.
  set (st1 := Validate.mkState _ _ (r + 1)) in H.
  destruct (check_response_cases st1 payload resp)
    as (Hrow & S0 & B & HS0 & HB & HBall & Hcase).
  simpl in Hrow, HS0, HB, HBall.
  destruct (IH _ _ H) as (Hrow' & S' & E' & HS' & HE' & Hcount & Hsort & Hpar & Hrows & Hper).
  { rewrite Hrow. lia. }
  { rewrite Hrow. lia. }
  rewrite Hrow in Hrow', Hrows, Hper.
  assert (Forall (λ e, Validate.Row e = (r + 1)%Z) B) as HBrow.
  { eapply Forall_impl; [exact HBall|]. by intros e (? & _). }
  assert (∀ e, e ∈ B → Validate.Row e = (r + 1)%Z) as HBrow'.
  { by apply Forall_forall. }
  split; [lia|]. exists (S0 ++ S'), (B ++ E').
  split_and!.
  - by rewrite HS', HS0, app_assoc.
  - by rewrite HE', HB, app_assoc.
  - unfold Validate.failed_rows. rewrite fmap_app, list_to_set_app_L.
    fold (Validate.failed_rows B) (Validate.failed_rows E').
    destruct (Validate.accepted resp); destruct Hcase as [-> HBne].
    + subst B. unfold Validate.failed_rows at 1. simpl.
      rewrite (left_id_L ∅ (∪)). lia.
    + rewrite (failed_rows_same_row B (r + 1)) by done.
      rewrite size_union, size_singleton; [simpl; lia|].
      apply disjoint_singleton_l. intros (e & He & Hrow_e)%elem_of_failed_rows.
      apply Hrows in He. lia.
  - rewrite fmap_app. apply StronglySorted_app_2; [|by apply (StronglySorted_same_row B (r + 1))|done].
    intros x1 x2 (e1 & -> & He1)%list_elem_of_fmap (e2 & -> & He2)%list_elem_of_fmap.
    apply HBrow' in He1. apply Hrows in He2. lia.
  - apply Forall_app. split; [|done].
    eapply Forall_impl; [exact HBall|]. by intros e (_ & _ & _ & ?).
  - intros e [He|He]%elem_of_app.
    + apply HBrow' in He. lia.
    + apply Hrows in He. lia.
  - intros [|k] row' answer' Hk; simpl in Hk.
    + injection Hk as <- <-. exists payload, resp. split_and!; [done..| |].
      * intros e [He|He]%elem_of_app Hrow_e.
        -- rewrite Forall_forall in HBall. by destruct (HBall e He) as (_ & ? & ? & _).
        -- apply Hrows in He. lia.
      * destruct (Validate.accepted resp); destruct Hcase as [-> HBne].
        -- split; [by left|]. subst B. intros e He Hrow_e.
           rewrite app_nil_l in He. apply Hrows in He. lia.
        -- destruct B as [|e B]; [done|]. exists e. split; [by left|].
           rewrite HBrow' by by left. lia.
    + destruct (Hper k row' answer' Hk)
        as (payload' & resp' & Hflat' & -> & Hlen' & Hnames & Hacc).
      exists payload', resp'. split_and!; [done..| |].
      * intros e [He|He]%elem_of_app Hrow_e.
        -- apply HBrow' in He. lia.
        -- apply Hnames; [done|lia].
      * destruct (Validate.accepted resp').
        -- destruct Hacc as [Hin Hno]. split; [apply elem_of_app; by right|].
           intros e [He|He]%elem_of_app Hrow_e.
           ++ apply HBrow' in He. lia.
           ++ apply (Hno e He). lia.
        -- destruct Hacc as (e & He & Hrow_e). exists e.
           split; [apply elem_of_app; by right|lia].
Qed.

Lemma validate_rows_inv headers input st :
  Validate.validate_rows headers input = Validate.Done st →
  (Z.of_nat (length input) < 2 ^ 63 - 1)%Z →
  Validate.rowNum st = (1 + Z.of_nat (length input))%Z
  ∧ (length (Validate.successfulResults st)
     + size (Validate.failed_rows (Validate.validationErrors st)) = length input)%nat
  ∧ StronglySorted Z.le (Validate.Row <$> Validate.validationErrors st)
  ∧ Forall (λ e, Validate.Params e = "") (Validate.validationErrors st)
  ∧ (∀ e, e ∈ Validate.validationErrors st →
       (2 ≤ Validate.Row e ≤ 1 + Z.of_nat (length input))%Z)
  ∧ ∀ k row answer, input !! k = Some (Some row, answer) →
      ∃ payload resp,
        flatten_row headers row = Ok payload ∧ answer = Some resp
        ∧ length row = length headers
        ∧ (∀ e, e ∈ Validate.validationErrors st →
             Validate.Row e = (2 + Z.of_nat k)%Z →
             Validate.AccountName e = getAccountName payload
             ∧ Validate.BankCountry e = getBankCountry payload)
        ∧ (if Validate.accepted resp
           then payload ∈ Validate.successfulResults st
                ∧ ∀ e, e ∈ Validate.validationErrors st →
                    Validate.Row e ≠ (2 + Z.of_nat k)%Z
           else ∃ e, e ∈ Validate.validationErrors st
                ∧ Validate.Row e = (2 + Z.of_nat k)%Z).
Proof.
  intros H Hmax. unfold Validate.validate_rows in H.
  destruct (range_rows_inv headers input _ st H)
    as (Hrow & S & E & HS & HE & Hcount & Hsort & Hpar & Hrows & Hper);
    [simpl; lia..|].
  simpl in HS, HE, Hrow, Hrows, Hper. subst S E.
  split_and!; try done.
  intros e He. apply Hrows in He. lia.
Qed.

(** Every data row is accounted for once: after a run to the end of the
    file, the number of successful results and the number of rows that have
    errors add up to the number of data rows, and the row counter stands at
    that number plus one (for the header row). *)
Theorem validate_rows_accounts_every_row headers input st :
  Validate.validate_rows headers input = Validate.Done st →
  (Z.of_nat (length input) < 2 ^ 63 - 1)%Z →
  (length (Validate.successfulResults st)
   + size (Validate.failed_rows (Validate.validationErrors st)) = length input)%nat
  ∧ Validate.rowNum st = (1 + Z.of_nat (length input))%Z.
Proof.
  intros H Hmax. by destruct (validate_rows_inv _ _ _ H Hmax) as (? & ? & _).
Qed.

Lemma validate_rows_accounts_every_row_witness :
  ∃ st,
    Validate.validate_rows ["a"]
      [ (Some ["x"], Some (Validate.mkResponse 200 []));
        (Some ["y"], Some (Validate.mkResponse 400 [("code", "bad"); ("message", "no")])) ]
    = Validate.Done st
    ∧ Validate.rowNum st = 3%Z.
Proof.
  eexists. split; [vm_compute; reflexivity|].
  refine (proj2 (validate_rows_accounts_every_row ["a"]
    [ (Some ["x"], Some (Validate.mkResponse 200 []));
      (Some ["y"], Some (Validate.mkResponse 400 [("code", "bad"); ("message", "no")])) ]
    _ _ _)); [vm_compute; reflexivity | reflexivity].
Defined.

(** Errors are charged to the right row: for the data row at position [k]
    (from 0; it is row [k + 2] of the file), an accepted answer puts the row's
    payload among the successful results and leaves no error with that row
    number; any other answer leaves at least one; and every error with that
    row number carries the account name and the bank country read from that
    row's payload. *)
Theorem validate_rows_attribution headers input st k row answer :
  Validate.validate_rows headers input = Validate.Done st →
  (Z.of_nat (length input) < 2 ^ 63 - 1)%Z →
  input !! k = Some (Some row, answer) →
  ∃ payload resp,
    flatten_row headers row = Ok payload ∧ answer = Some resp
    ∧ (∀ e, e ∈ Validate.validationErrors st →
         Validate.Row e = (2 + Z.of_nat k)%Z →
         Validate.AccountName e = getAccountName payload
         ∧ Validate.BankCountry e = getBankCountry payload)
    ∧ (if Validate.accepted resp
       then payload ∈ Validate.successfulResults st
            ∧ ∀ e, e ∈ Validate.validationErrors st →
                Validate.Row e ≠ (2 + Z.of_nat k)%Z
       else ∃ e, e ∈ Validate.validationErrors st
            ∧ Validate.Row e = (2 + Z.of_nat k)%Z).
Proof.
  intros H Hmax Hk.
  destruct (validate_rows_inv _ _ _ H Hmax) as (_ & _ & _ & _ & _ & Hper).
  destruct (Hper k row answer Hk) as (payload & resp & ? & ? & _ & ? & ?).
  by exists payload, resp.
Qed.

Lemma validate_rows_attribution_witness :
  ∃ st payload resp,
    Validate.validate_rows ["a"]
      [ (Some ["x"], Some (Validate.mkResponse 200 []));
        (Some ["y"], Some (Validate.mkResponse 401 [])) ]
    = Validate.Done st
    ∧ flatten_row ["a"] ["y"] = Ok payload
    ∧ Some (Validate.mkResponse 401 []) = Some resp.
Proof.
  eexists.
  destruct (validate_rows_attribution ["a"]
    [ (Some ["x"], Some (Validate.mkResponse 200 []));
      (Some ["y"], Some (Validate.mkResponse 401 [])) ]
    _ 1%nat ["y"] (Some (Validate.mkResponse 401 []))
    ltac:(vm_compute; reflexivity) eq_refl eq_refl)
    as (payload & resp & Hflat & Hresp & _).
  exists payload, resp. split; [reflexivity|]. split; assumption.
Defined.

(** The errors are listed in the order of the rows of the file, and their
    row numbers run from 2 to the number of data rows plus one. *)
Theorem validate_rows_errors_in_file_order headers input st :
  Validate.validate_rows headers input = Validate.Done st →
  (Z.of_nat (length input) < 2 ^ 63 - 1)%Z →
  StronglySorted Z.le (Validate.Row <$> Validate.validationErrors st)
  ∧ ∀ e, e ∈ Validate.validationErrors st →
      (2 ≤ Validate.Row e ≤ 1 + Z.of_nat (length input))%Z.
Proof.
  intros H Hmax. by destruct (validate_rows_inv _ _ _ H Hmax) as (_ & _ & ? & _ & ? & _).
Qed.

Lemma validate_rows_errors_in_file_order_witness :
  ∃ st,
    Validate.validate_rows ["a"]
      [ (Some ["x"], Some (Validate.mkResponse 401 []));
        (Some ["y"], Some (Validate.mkResponse 400 [("code", "bad")])) ]
    = Validate.Done st
    ∧ StronglySorted Z.le (Validate.Row <$> Validate.validationErrors st).
Proof.
  eexists. split; [vm_compute; reflexivity|].
  refine (proj1 (validate_rows_errors_in_file_order ["a"]
    [ (Some ["x"], Some (Validate.mkResponse 401 []));
      (Some ["y"], Some (Validate.mkResponse 400 [("code", "bad")])) ]
    _ _ _)); [vm_compute; reflexivity | reflexivity].
Defined.

(** * The detailed report *)

Lemma print_errors_cons p err errs :
  Validate.print_errors p (err :: errs)
  = (if negb (Validate.Row err =? p)%Z
     then [Validate.PRowHeader (Validate.Row err) (Validate.AccountName err)
             (Validate.BankCountry err)]
     else [])
    ++ (if String.eqb (Validate.ErrorSource err) "message"
           || String.eqb (Validate.ErrorSource err) "details"
           || String.eqb (Validate.ErrorSource err) "code"
        then [Validate.PErrorSource (Validate.ErrorSource err);
              Validate.PErrorMessage (Validate.ErrorMessage err)]
             ++ (if negb (String.eqb (Validate.Params err) "")
                 then [Validate.PParameters (Validate.Params err)] else [])
        else [])
    ++ Validate.print_errors
         (if negb (Validate.Row err =? p)%Z then Validate.Row err else p) errs.
Proof. reflexivity. Qed.

Lemma print_errors_headers errs : ∀ p,
  StronglySorted Z.le (Validate.Row <$> errs) →
  (∀ e, e ∈ errs → (p ≤ Validate.Row e)%Z) →
  length (List.filter Validate.is_row_header (Validate.print_errors p errs))
  = size (Validate.failed_rows errs ∖ {[ p ]}).
Proof.
  induction errs as [|err errs IH]; intros p Hsort Hp.
  { unfold Validate.failed_rows. rewrite fmap_nil, list_to_set_nil.
    assert ((∅ : gset Z) ∖ {[p]} = ∅) as -> by set_solver. by rewrite size_empty. }
  rewrite print_errors_cons, !List.filter_app, !length_app.
  rewrite fmap_cons in Hsort. apply StronglySorted_inv in Hsort as [Hsort Hall].
  assert (length (List.filter Validate.is_row_header
            (if String.eqb (Validate.ErrorSource err) "message"
                || String.eqb (Validate.ErrorSource err) "details"
                || String.eqb (Validate.ErrorSource err) "code"
             then [Validate.PErrorSource (Validate.ErrorSource err);
                   Validate.PErrorMessage (Validate.ErrorMessage err)]
                  ++ (if negb (String.eqb (Validate.Params err) "")
                      then [Validate.PParameters (Validate.Params err)] else [])
             else [])) = 0%nat) as ->.
  { destruct (_ || _); [|done]. by destruct (negb _). }
  assert (Validate.failed_rows (err :: errs)
          = {[ Validate.Row err ]} ∪ Validate.failed_rows errs) as ->.
  { unfold Validate.failed_rows. by rewrite fmap_cons, list_to_set_cons. }
  destruct (Validate.Row err =? p)%Z eqn:E; simpl.
  - apply Z.eqb_eq in E. rewrite IH; [|done|].
    + f_equal. rewrite E. set_solver.
    + intros e He. apply Hp. by right.
  - apply Z.eqb_neq in E.
    assert (p < Validate.Row err)%Z as Hlt.
    { assert (p ≤ Validate.Row err)%Z by (apply Hp; by left). lia. }
    rewrite IH; [|done|].
    + assert (({[Validate.Row err]} ∪ Validate.failed_rows errs) ∖ {[p]}
              = {[Validate.Row err]} ∪ Validate.failed_rows errs) as ->.
      { apply set_eq. intros x. rewrite elem_of_difference, elem_of_singleton.
        split; [by intros [? _]|]. intros Hx. split; [done|].
        apply elem_of_union in Hx as [->%elem_of_singleton|(e & He & <-)%elem_of_failed_rows].
        - lia.
        - rewrite Forall_fmap, Forall_forall in Hall. specialize (Hall e He).
          simpl in Hall. lia. }
      pose proof (size_union_alt (C:=gset Z) {[Validate.Row err]}
                    (Validate.failed_rows errs)) as Hsize.
      rewrite size_singleton in Hsize. by rewrite Hsize.
    + intros e He. rewrite Forall_fmap, Forall_forall in Hall. by apply Hall.
Qed.

Lemma print_errors_no_parameters errs :
  Forall (λ e, Validate.Params e = "") errs →
  ∀ p params, Validate.PParameters params ∉ Validate.print_errors p errs.
Proof.
  intros Hpar. induction Hpar as [|err errs Herr _ IH]; intros p params Hin.
  { by apply elem_of_nil in Hin. }
  rewrite print_errors_cons, Herr in Hin. simpl in Hin.
  rewrite !elem_of_app in Hin. destruct Hin as [Hin|[Hin|Hin]].
  - destruct (negb _); [|by apply elem_of_nil in Hin].
    by apply list_elem_of_singleton in Hin.
  - destruct (_ || _); [|by apply elem_of_nil in Hin].
    apply elem_of_cons in Hin as [?|Hin]; [done|].
    by apply list_elem_of_singleton in Hin.
  - by apply IH in Hin.
Qed.

(** In the detailed report of a run, each row that has errors gets its
    header line exactly once (so there are as many header lines as data rows
    without a successful result), and the "Parameters" line is never
    printed. *)
Theorem print_report_one_header_per_failed_row headers input st :
  Validate.validate_rows headers input = Validate.Done st →
  (Z.of_nat (length input) < 2 ^ 63 - 1)%Z →
  length (List.filter Validate.is_row_header
            (Validate.print_report (Validate.validationErrors st)))
  = size (Validate.failed_rows (Validate.validationErrors st))
  ∧ (length (List.filter Validate.is_row_header
               (Validate.print_report (Validate.validationErrors st)))
     + length (Validate.successfulResults st) = length input)%nat
  ∧ ∀ params, Validate.PParameters params
              ∉ Validate.print_report (Validate.validationErrors st).
Proof.
  intros H Hmax.
  destruct (validate_rows_inv _ _ _ H Hmax) as (_ & Hcount & Hsort & Hpar & Hrows & _).
  assert (length (List.filter Validate.is_row_header
            (Validate.print_report (Validate.validationErrors st)))
          = size (Validate.failed_rows (Validate.validationErrors st))) as Hheaders.
  { unfold Validate.print_report. rewrite print_errors_headers; [|done|].
    - f_equal. apply set_eq. intros x. rewrite elem_of_difference, elem_of_singleton.
      split; [by intros [? _]|]. intros Hx. split; [done|].
      apply elem_of_failed_rows in Hx as (e & He%Hrows & <-). lia.
    - intros e He%Hrows. lia. }
  split_and!; [done|lia|].
  intros params. by apply print_errors_no_parameters.
Qed.

Lemma print_report_one_header_per_failed_row_witness :
  ∃ st,
    Validate.validate_rows ["a"]
      [ (Some ["x"], Some (Validate.mkResponse 400 [("code", "bad"); ("message", "no")]));
        (Some ["y"], Some (Validate.mkResponse 200 [])) ]
    = Validate.Done st
    ∧ (length (List.filter Validate.is_row_header
                 (Validate.print_report (Validate.validationErrors st)))
       + length (Validate.successfulResults st) = 2)%nat.
Proof.
  eexists. split; [vm_compute; reflexivity|].
  refine (proj1 (proj2 (print_report_one_header_per_failed_row ["a"]
    [ (Some ["x"], Some (Validate.mkResponse 400 [("code", "bad"); ("message", "no")]));
      (Some ["y"], Some (Validate.mkResponse 200 [])) ]
    _ _ _))); [vm_compute; reflexivity | reflexivity].
Defined.

(** * Which failures a run can end in *)

Lemma range_parts_panic_kind parts v : ∀ m e,
  range_parts m parts v = Panic e → e = TypeAssertion.
Proof.
  induction parts as [|part rest IH]; intros m e H; [done|].
  destruct (decide (rest = [])) as [->|Hrest].
  - rewrite range_parts_last in H. by destruct (negb _).
  - rewrite range_parts_cons in H by done.
    destruct (m !! part) as [[s|l|n]|]; try by injection H.
    + destruct (range_parts n rest v) eqn:E; [done|]. injection H as <-. by apply (IH n).
    + destruct (range_parts ∅ rest v) eqn:E; [done|]. injection H as <-. by apply (IH ∅).
Qed.

Lemma buildNestedDict_panic_kind d path v e :
  buildNestedDict d path v = Panic e → e = TypeAssertion.
Proof.
  unfold buildNestedDict. destruct (is_reserved path); [done|].
  apply range_parts_panic_kind.
Qed.

Lemma range_row_no_index_panic headers row : ∀ payload i,
  (i + length row ≤ length headers)%nat →
  range_row payload headers i row ≠ Panic IndexOutOfRange.
Proof.
  induction row as [|v row IH]; intros payload i Hlen; [done|]. simpl in *.
  destruct (lookup_lt_is_Some_2 headers i) as [h ->]; [lia|].
  destruct (buildNestedDict payload h v) as [payload'|e] eqn:E.
  - apply IH. lia.
  - apply buildNestedDict_panic_kind in E as ->. done.
Qed.

Lemma range_rows_failures headers : ∀ input st,
  Validate.range_rows headers st input
  ≠ Validate.Failed (Validate.FlattenPanic IndexOutOfRange)
  ∧ (∀ st', Validate.range_rows headers st input = Validate.Done st' →
            Forall (λ ra, ∃ row, ra.1 = Some row ∧ length row = length headers) input)
  ∧ (Forall (λ ra, ∀ row, ra.1 = Some row → length row = length headers) input →
     Validate.range_rows headers st input ≠ Validate.Failed Validate.FieldCount).
Proof.
  induction input as [|[[row|] answer] input IH]; intros st; [by split_and!| |].
  2:{ simpl. split_and!; [done..|]. by intros _. }
  simpl. destruct (length row =? length headers)%nat eqn:E; simpl.
  2:{ apply Nat.eqb_neq in E. split_and!; [done..|].
      intros Hall. inversion Hall as [|? ? Hrow]; subst. simpl in Hrow.
      by specialize (Hrow row eq_refl). }
  apply Nat.eqb_eq in E.
  destruct (flatten_row headers row) as [payload|e] eqn:Hflat.
  2:{ split_and!; [|done..]. intros [= ->].
      by apply (range_row_no_index_panic headers row ∅ 0); [simpl; lia|]. }
  destruct answer as [resp|]; [|by split_and!].
  destruct (IH (Validate.check_response
                  (Validate.mkState (Validate.successfulResults st)
                     (Validate.validationErrors st)
                     (Validate.int_wrap (Validate.rowNum st + 1)))
                  payload resp)) as (H1 & H2 & H3).
  split_and!; [done| |].
  - intros st' H. constructor; [by exists row|]. by apply (H2 st').
  - intros Hall. inversion Hall; subst. by apply H3.
Qed.

(** A run never dies on [headers[i]]: a row whose number of fields differs
    from the header row's is stopped by the reader before it is flattened.
    So a run that gets to the end has seen only rows of the header's length,
    and rows of that length never stop it with the field count error. *)
Theorem validate_rows_guards_index headers input :
  Validate.validate_rows headers input
  ≠ Validate.Failed (Validate.FlattenPanic IndexOutOfRange)
  ∧ (∀ st, Validate.validate_rows headers input = Validate.Done st →
           Forall (λ ra, ∃ row, ra.1 = Some row ∧ length row = length headers) input)
  ∧ (Forall (λ ra, ∀ row, ra.1 = Some row → length row = length headers) input →
     Validate.validate_rows headers input ≠ Validate.Failed Validate.FieldCount).
Proof. apply range_rows_failures. Qed.

(** * The order of the columns *)

Lemma partial_alter_swap (m : record) k1 k2 o1 o2 :
  k1 ≠ k2 →
  partial_alter (λ _, o1) k1 (partial_alter (λ _, o2) k2 m)
  = partial_alter (λ _, o2) k2 (partial_alter (λ _, o1) k1 m).
Proof.
  intros Hk. apply map_eq. intros i.
  destruct (decide (i = k1)) as [->|H1].
  - rewrite lookup_partial_alter_eq.
    rewrite (lookup_partial_alter_ne _ _ k2 k1) by done.
    by rewrite lookup_partial_alter_eq.
  - rewrite (lookup_partial_alter_ne _ _ k1 i) by done.
    destruct (decide (i = k2)) as [->|H2].
    + by rewrite !lookup_partial_alter_eq.
    + by rewrite !lookup_partial_alter_ne.
Qed.

Lemma acts_on_key_commute k1 k2 op1 op2 m :
  k1 ≠ k2 → acts_on_key k1 op1 → acts_on_key k2 op2 →
  and_then (op1 m) op2 = and_then (op2 m) op1.
Proof.
  intros Hk [f1 H1] [f2 H2]. rewrite (H1 m), (H2 m).
  destruct (f1 (m !! k1)) as [o1|] eqn:E1, (f2 (m !! k2)) as [o2|] eqn:E2; simpl.
  - rewrite H1, H2, !lookup_partial_alter_ne, E1, E2 by done.
    by rewrite partial_alter_swap.
  - by rewrite H2, lookup_partial_alter_ne, E2.
  - by rewrite H1, lookup_partial_alter_ne, E1.
  - done.
Qed.

Lemma range_parts_acts_on_key k rest v :
  acts_on_key k (λ m, range_parts m (k :: rest) v).
Proof.
  destruct (decide (rest = [])) as [->|Hrest].
  - exists (λ o, Some (if negb (String.eqb v "") then Some (VStr v) else o)).
    intros m. rewrite range_parts_last. destruct (negb _); [done|].
    by rewrite partial_alter_self.
  - exists (λ o, match o with
                 | None =>
                     match range_parts ∅ rest v with
                     | Ok n' => Some (Some (VMap n'))
                     | Panic _ => None
                     end
                 | Some (VMap n) =>
                     match range_parts n rest v with
                     | Ok n' => Some (Some (VMap n'))
                     | Panic _ => None
                     end
                 | Some _ => None
                 end).
    intros m. rewrite range_parts_cons by done.
    destruct (m !! k) as [[s|l|n]|]; try done.
    + destruct (range_parts n rest v) eqn:E; [done|].
      by rewrite (range_parts_panic_kind _ _ _ _ E).
    + destruct (range_parts ∅ rest v) eqn:E; [done|].
      by rewrite (range_parts_panic_kind _ _ _ _ E).
Qed.

Lemma range_parts_commute p1 : ∀ p2 m v1 v2,
  diverge p1 p2 →
  and_then (range_parts m p1 v1) (λ m1, range_parts m1 p2 v2)
  = and_then (range_parts m p2 v2) (λ m2, range_parts m2 p1 v1).
Proof.
  induction p1 as [|k1 r1 IH]; intros p2 m v1 v2 Hd.
  { by apply diverge_nonempty in Hd as [? _]. }
  destruct p2 as [|k2 r2]; [by apply diverge_nonempty in Hd as [_ ?]|].
  apply diverge_cons_inv in Hd as [Hk|[<- Hd]].
  { apply (acts_on_key_commute k1 k2 (λ m, range_parts m (k1 :: r1) v1)
             (λ m, range_parts m (k2 :: r2) v2));
      [done|apply range_parts_acts_on_key..]. }
  destruct (diverge_nonempty _ _ Hd) as [Hr1 Hr2].
  specialize (IH r2).
  rewrite !(range_parts_cons m) by done.
  assert (∀ n, and_then
                 (match range_parts n r1 v1 with
                  | Ok n' => Ok (<[k1:=VMap n']> m)
                  | Panic e => Panic e
                  end) (λ m1, range_parts m1 (k1 :: r2) v2)
               = and_then
                   (match range_parts n r2 v2 with
                    | Ok n' => Ok (<[k1:=VMap n']> m)
                    | Panic e => Panic e
                    end) (λ m2, range_parts m2 (k1 :: r1) v1)) as Hsub.
  { intros n. specialize (IH n v1 v2 Hd).
    destruct (range_parts n r1 v1) as [n1|e1] eqn:E1,
             (range_parts n r2 v2) as [n2|e2] eqn:E2; unfold and_then in *.
    - rewrite !range_parts_cons, !lookup_insert_eq by done. rewrite IH.
      destruct (range_parts n2 r1 v1); [|done]. by rewrite !insert_insert_eq.
    - rewrite range_parts_cons, lookup_insert_eq by done. by rewrite IH.
    - rewrite range_parts_cons, lookup_insert_eq by done. by rewrite <- IH.
    - by rewrite (range_parts_panic_kind _ _ _ _ E1),
                 (range_parts_panic_kind _ _ _ _ E2). }
  destruct (m !! k1) as [[s|l|n]|]; try done; apply Hsub.
Qed.

Lemma buildNestedDict_acts_on_key path v k :
  parts_of path !! 0 = Some k → acts_on_key k (λ d, buildNestedDict d path v).
Proof.
  intros Hk. destruct (is_reserved path) eqn:R.
  - rewrite (reserved_parts _ R) in Hk. injection Hk as <-.
    exists (λ _, Some (Some (VList (Strings.Split v comma)))).
    intros d. by rewrite buildNestedDict_reserved.
  - destruct (parts_of path) as [|k' rest] eqn:E; [done|]. injection Hk as ->.
    destruct (range_parts_acts_on_key k rest v) as [f Hf]. exists f.
    intros d. by rewrite buildNestedDict_plain, E.
Qed.

Lemma buildNestedDict_commute_steps d h1 v1 h2 v2 :
  diverge (parts_of h1) (parts_of h2) →
  and_then (buildNestedDict d h1 v1) (λ d1, buildNestedDict d1 h2 v2)
  = and_then (buildNestedDict d h2 v2) (λ d2, buildNestedDict d2 h1 v1).
Proof.
  intros Hd.
  destruct (is_reserved h1) eqn:R1, (is_reserved h2) eqn:R2.
  4:{ assert (∀ d, buildNestedDict d h1 v1 = range_parts d (parts_of h1) v1) as E1
        by (intros; by apply buildNestedDict_plain).
      assert (∀ d, buildNestedDict d h2 v2 = range_parts d (parts_of h2) v2) as E2
        by (intros; by apply buildNestedDict_plain).
      etrans; [|etrans; [apply (range_parts_commute (parts_of h1) (parts_of h2)
                                  d v1 v2 Hd)|]].
      - rewrite E1. destruct (range_parts d (parts_of h1) v1); [apply E2|done].
      - rewrite E2. destruct (range_parts d (parts_of h2) v2); [|done].
        symmetry. apply E1. }
  all: pose proof (parts_of_nonempty h1) as N1;
       pose proof (parts_of_nonempty h2) as N2;
       destruct (parts_of h1) as [|k1 r1] eqn:E1; [done|];
       destruct (parts_of h2) as [|k2 r2] eqn:E2; [done|];
       apply (acts_on_key_commute k1 k2 (λ d, buildNestedDict d h1 v1)
                (λ d, buildNestedDict d h2 v2));
       [|apply buildNestedDict_acts_on_key; by rewrite E1
        |apply buildNestedDict_acts_on_key; by rewrite E2].
  all: apply diverge_cons_inv in Hd as [?|[<- Hd]]; [done|];
       apply diverge_nonempty in Hd as [Hr1 Hr2].
  - rewrite (reserved_parts _ R1) in E1. by injection E1 as _ <-.
  - rewrite (reserved_parts _ R1) in E1. by injection E1 as _ <-.
  - rewrite (reserved_parts _ R2) in E2. by injection E2 as _ <-.
Qed.

Lemma and_then_assoc {A B C : Type} (r : result A) (f : A → result B)
    (g : B → result C) :
  and_then (and_then r f) g = and_then r (λ a, and_then (f a) g).
Proof. by destruct r. Qed.

Lemma range_row_shift h headers row : ∀ payload i,
  range_row payload (h :: headers) (S i) row = range_row payload headers i row.
Proof.
  induction row as [|v row IH]; intros payload i; [done|]. simpl.
  destruct (headers !! i) as [h'|]; [|done].
  destruct (buildNestedDict payload h' v); [apply IH | done].
Qed.

Lemma range_row_pairs_cons payload h v (l : list (string * string)) :
  range_row payload ((h, v) :: l).*1 0 ((h, v) :: l).*2
  = and_then (buildNestedDict payload h v) (λ payload', range_row payload' l.*1 0 l.*2).
Proof.
  simpl. destruct (buildNestedDict payload h v); [apply range_row_shift | done].
Qed.

Lemma collision_free_subset (hs hs' : list string) :
  (∀ h, h ∈ hs' → h ∈ hs) → collision_free hs = true → collision_free hs' = true.
Proof.
  rewrite !collision_free_spec. intros Hsub H h1 h2 H1 H2. apply H; by apply Hsub.
Qed.

Lemma distinct_headers_diverge headers h1 h2 :
  collision_free headers = true → h1 ∈ headers → h2 ∈ headers → h1 ≠ h2 →
  diverge (parts_of h1) (parts_of h2).
Proof.
  rewrite collision_free_spec. intros Hfree H1 H2 Hne.
  destruct (path_trichotomy (parts_of h1) (parts_of h2)) as [E|[Hs|[Hs|?]]]; [| | |done].
  - by apply parts_of_inj in E.
  - by destruct (Hfree h1 h2).
  - by destruct (Hfree h2 h1).
Qed.

Lemma range_row_permutation (l l' : list (string * string)) :
  l ≡ₚ l' → NoDup l.*1 → collision_free l.*1 = true →
  ∀ payload, range_row payload l.*1 0 l.*2 = range_row payload l'.*1 0 l'.*2.
Proof.
  intros HP. induction HP as [|[h v] l l' HP IH|[h1 v1] [h2 v2] l|l l' l'' HP1 IH1 HP2 IH2];
    intros Hnd Hfree payload.
  - done.
  - rewrite !range_row_pairs_cons.
    destruct (buildNestedDict payload h v); [simpl|done].
    apply IH.
    + by apply NoDup_cons in Hnd as [_ ?].
    + apply (collision_free_subset ((h, v) :: l).*1); [|done].
      intros x Hx. by right.
  - rewrite !range_row_pairs_cons.
    assert (∀ a b va vb p,
      and_then (buildNestedDict p a va)
        (λ p', range_row p' ((b, vb) :: l).*1 0 ((b, vb) :: l).*2)
      = and_then (and_then (buildNestedDict p a va) (λ p', buildNestedDict p' b vb))
          (λ p', range_row p' l.*1 0 l.*2)) as Hnest.
    { intros a b va vb p. rewrite and_then_assoc.
      destruct (buildNestedDict p a va); [simpl|done]. apply range_row_pairs_cons. }
    rewrite !Hnest. f_equal. apply buildNestedDict_commute_steps.
    simpl in Hnd, Hfree.
    apply (distinct_headers_diverge (h2 :: h1 :: l.*1)); [done|by left|by right; left|].
    apply NoDup_cons in Hnd as [Hnot _]. intros ->. apply Hnot. by left.
  - rewrite IH1 by done. apply IH2.
    + by rewrite <- HP1.
    + apply (collision_free_subset l.*1); [|done].
      intros x Hx. by rewrite HP1.
Qed.

(** The order of the columns does not matter: for distinct, collision-free
    headers, the cells given in another column order (each with its header)
    flatten to the same record. *)
Theorem flatten_row_column_order (l l' : list (string * string)) :
  l ≡ₚ l' → NoDup l.*1 → collision_free l.*1 = true →
  flatten_row l.*1 l.*2 = flatten_row l'.*1 l'.*2.
Proof. intros HP Hnd Hfree. by apply range_row_permutation. Qed.

Lemma flatten_row_column_order_witness :
  flatten_row ["a.b"; "a.c"; "d"] ["x"; "y"; "z"]
  = flatten_row ["d"; "a.c"; "a.b"] ["z"; "y"; "x"].
Proof.
  apply (flatten_row_column_order [("a.b", "x"); ("a.c", "y"); ("d", "z")]
           [("d", "z"); ("a.c", "y"); ("a.b", "x")]).
  - apply (bool_decide_unpack _). vm_compute. exact I.
  - apply (bool_decide_unpack _). vm_compute. exact I.
  - vm_compute. reflexivity.
Defined.



(** The in-place [buildNestedDict] on a store in which [dict] is a tree of
    map objects does to the record what the function on records does, panics
    when that one does, and leaves every object that is not under [dict]
    alone. *)
Theorem heap_buildNestedDict_in_place h dict d path v :
  represents h (CRef dict) (VMap d) →
  match buildNestedDict d path v with
  | Ok d' =>
      ∃ h', Heap.buildNestedDict h dict path v = Ok h'
            ∧ represents h' (CRef dict) (VMap d')
            ∧ (∀ b, (b < length h)%nat → ¬ Heap.reach h (CRef dict) b →
                    h' !! b = h !! b)
  | Panic e => Heap.buildNestedDict h dict path v = Panic e
  end.
Proof.
  intros Hrep. pose proof (heap_buildNestedDict_refines h dict d path v Hrep) as H.
  destruct (buildNestedDict d path v); [|done].
  destruct H as (h' & Hrun & Hrep' & _ & Hsame & _). by exists h'.
Qed.

Lemma heap_buildNestedDict_in_place_witness :
  ∃ h', Heap.buildNestedDict ([ {[ "z" := CRef 1 ]}; ∅ ] ++ [∅]) 2 "a.b" "x" = Ok h'
        ∧ h' !! 0%nat = ([ {[ "z" := CRef 1 ]}; (∅ : gmap string cell) ] ++ [∅]) !! 0%nat.
Proof.
  pose proof (heap_buildNestedDict_in_place ([ {[ "z" := CRef 1 ]}; ∅ ] ++ [∅])
                (length [ {[ "z" := CRef 1 ]}; (∅ : gmap string cell) ]) ∅ "a.b" "x"
                (represents_fresh [ {[ "z" := CRef 1 ]}; ∅ ])) as H.
  assert (buildNestedDict ∅ "a.b" "x" = Ok {[ "a" := VMap {[ "b" := VStr "x" ]} ]})
    as E by (vm_compute; reflexivity).
  rewrite E in H. destruct H as (h' & Hrun & _ & Hsame).
  exists h'. split; [exact Hrun|]. apply Hsame; [simpl; lia|].
  intros Hr. apply heap_reach_fresh in Hr. simpl in Hr. lia.
Defined.

(** * The bookkeeping of [createBeneficiaries] *)

Lemma range_results_cons_inv cr i result answer input cr' :
  Create.range_results cr i ((result, answer) :: input) = Create.Done cr' →
  ∃ payload resp, result = VMap payload ∧ answer = Some resp
    ∧ if Create.is_created resp
      then ∃ id, Create.createResp resp !! "beneficiary_id" = Some (VStr id)
             ∧ Create.range_results
                 (Create.mkResult
                    (Validate.int_wrap (Create.SuccessfulCount cr + 1))
                    (Create.SuccessfulResults cr
                     ++ [Create.mkCreated (getAccountName payload) (Z.of_nat i + 1) id])
                    (Create.ErrorsCount cr) (Create.ErrorsResults cr))
                 (S i) input = Create.Done cr'
      else Create.range_results
             (Create.mkResult (Create.SuccessfulCount cr)
                (Create.SuccessfulResults cr)
                (Validate.int_wrap (Create.ErrorsCount cr + 1))
                (Create.ErrorsResults cr
                 ++ [Create.mkCreateError (getAccountName payload)
                       (Create.createResp resp)]))
             (S i) input = Create.Done cr'.
Proof.
  simpl. unfold Create.is_created. destruct answer as [resp|]; [|done].
  destruct (Create.StatusCode resp =? 201)%Z eqn:Hc.
  - destruct result as [| |payload]; try done.
    destruct (Create.createResp resp !! "beneficiary_id") as [[id| |]|] eqn:E; try done.
    intros H. exists payload, resp. do 2 (split; [done|]). rewrite Hc. by exists id.
  - destruct result as [| |payload]; try done.
    intros H. exists payload, resp. do 2 (split; [done|]). by rewrite Hc.
Qed.

Lemma range_results_inv : ∀ input cr i cr',
  Create.range_results cr i input = Create.Done cr' →
  (0 ≤ Create.SuccessfulCount cr)%Z → (0 ≤ Create.ErrorsCount cr)%Z →
  (Create.SuccessfulCount cr + Z.of_nat (length input) < 2 ^ 63)%Z →
  (Create.ErrorsCount cr + Z.of_nat (length input) < 2 ^ 63)%Z →
  ∃ S E,
    Create.SuccessfulResults cr' = Create.SuccessfulResults cr ++ S
    ∧ Create.ErrorsResults cr' = Create.ErrorsResults cr ++ E
    ∧ Create.SuccessfulCount cr' = (Create.SuccessfulCount cr + Z.of_nat (length S))%Z
    ∧ Create.ErrorsCount cr' = (Create.ErrorsCount cr + Z.of_nat (length E))%Z
    ∧ (length S + length E = length input)%nat
    ∧ StronglySorted Z.lt (Create.Row <$> S)
    ∧ (∀ c, c ∈ S →
         (Z.of_nat i < Create.Row c ≤ Z.of_nat i + Z.of_nat (length input))%Z)
    ∧ ∀ k result answer, input !! k = Some (result, answer) →
        ∃ payload resp, result = VMap payload ∧ answer = Some resp
          ∧ if Create.is_created resp
            then ∃ id, Create.createResp resp !! "beneficiary_id" = Some (VStr id)
                   ∧ Create.mkCreated (getAccountName payload)
                       (Z.of_nat i + Z.of_nat k + 1) id ∈ S
            else Create.mkCreateError (getAccountName payload)
                   (Create.createResp resp) ∈ E.
Proof.
  induction input as [|[result answer] input IH]; intros cr i cr' H Hs He Hsmax Hemax.
  { injection H as <-. exists [], []. rewrite !app_nil_r. simpl.
    split_and!; try done; [lia|lia|constructor|by intros c ?%elem_of_nil]. }
  apply range_results_cons_inv in H as (payload & resp & -> & -> & H).
  simpl length in *.
  destruct (Create.is_created resp) eqn:Hc.
  - destruct H as (id & Hid & H). rewrite int_wrap_small in H by lia.
    destruct (IH _ _ _ H) as (S' & E' & HS & HE & HSc & HEc & Hlen & Hsort & Hrows & Hper);
      simpl; try lia.
    simpl in HS, HE, HSc, HEc.
    exists (Create.mkCreated (getAccountName payload) (Z.of_nat i + 1) id :: S'), E'.
    split_and!.
    + by rewrite HS, <- app_assoc.
    + done.
    + rewrite HSc. simpl length. lia.
    + done.
    + simpl. lia.
    + rewrite fmap_cons. constructor; [done|]. apply Forall_fmap, Forall_forall.
      intros c Hin%Hrows. simpl. lia.
    + intros c [->|Hin%Hrows]%elem_of_cons; simpl; lia.
    + intros [|k] result' answer' Hk; simpl in Hk.
      * injection Hk as <- <-. exists payload, resp. rewrite Hc.
        split_and!; [done..|]. exists id. split; [done|].
        rewrite Z.add_0_r. by left.
      * destruct (Hper k result' answer' Hk) as (payload' & resp' & -> & -> & Hk').
        exists payload', resp'. split_and!; [done..|].
        destruct (Create.is_created resp'); [|done].
        destruct Hk' as (id' & ? & Hin). exists id'. split; [done|]. right.
        replace (Z.of_nat i + Z.of_nat (S k) + 1)%Z
          with (Z.of_nat (S i) + Z.of_nat k + 1)%Z by lia. done.
  - rewrite int_wrap_small in H by lia.
    destruct (IH _ _ _ H) as (S' & E' & HS & HE & HSc & HEc & Hlen & Hsort & Hrows & Hper);
      simpl; try lia.
    simpl in HS, HE, HSc, HEc.
    exists S', (Create.mkCreateError (getAccountName payload) (Create.createResp resp) :: E').
    split_and!.
    + done.
    + by rewrite HE, <- app_assoc.
    + done.
    + rewrite HEc. simpl length. lia.
    + simpl. lia.
    + done.
    + intros c Hin%Hrows. lia.
    + intros [|k] result' answer' Hk; simpl in Hk.
      * injection Hk as <- <-. exists payload, resp. rewrite Hc.
        split_and!; [done..|]. by left.
      * destruct (Hper k result' answer' Hk) as (payload' & resp' & -> & -> & Hk').
        exists payload', resp'. split_and!; [done..|].
        destruct (Create.is_created resp'); [|by right].
        destruct Hk' as (id' & ? & Hin). exists id'. split; [done|].
        replace (Z.of_nat i + Z.of_nat (S k) + 1)%Z
          with (Z.of_nat (S i) + Z.of_nat k + 1)%Z by lia. done.
Qed.

(** After a run over all results, each counter equals the length of its
    list, the two add up to the number of results, and the rows recorded for
    the created beneficiaries increase strictly: a created one is listed with
    its position (from 1) among the validated results, its account name and
    the id from the answer; a refused one with its account name and the
    answer. *)
Theorem create_results_accounting input cr :
  Create.create_results input = Create.Done cr →
  (Z.of_nat (length input) < 2 ^ 63)%Z →
  Create.SuccessfulCount cr = Z.of_nat (length (Create.SuccessfulResults cr))
  ∧ Create.ErrorsCount cr = Z.of_nat (length (Create.ErrorsResults cr))
  ∧ (length (Create.SuccessfulResults cr) + length (Create.ErrorsResults cr)
     = length input)%nat
  ∧ StronglySorted Z.lt (Create.Row <$> Create.SuccessfulResults cr)
  ∧ ∀ k result answer, input !! k = Some (result, answer) →
      ∃ payload resp, result = VMap payload ∧ answer = Some resp
        ∧ if Create.is_created resp
          then ∃ id, Create.createResp resp !! "beneficiary_id" = Some (VStr id)
                 ∧ Create.mkCreated (getAccountName payload) (Z.of_nat k + 1) id
                   ∈ Create.SuccessfulResults cr
          else Create.mkCreateError (getAccountName payload) (Create.createResp resp)
               ∈ Create.ErrorsResults cr.
Proof.
  intros H Hmax. unfold Create.create_results in H.
  destruct (range_results_inv input _ 0 cr H)
    as (S & E & HS & HE & HSc & HEc & Hlen & Hsort & _ & Hper); simpl; try lia.
  simpl in HS, HE, HSc, HEc. subst S E.
  split_and!; [lia|lia|done|done|].
  intros k result answer Hk.
  destruct (Hper k result answer Hk) as (payload & resp & ? & ? & Hk').
  exists payload, resp. split_and!; [done..|].
  destruct (Create.is_created resp); [|done].
  destruct Hk' as (id & ? & Hin). exists id. split; [done|].
  by rewrite Z.add_0_l in Hin.
Qed.

Lemma create_results_accounting_witness :
  ∃ cr,
    Create.create_results
      [ (VMap ∅, Some (Create.mkResponse 201 {[ "beneficiary_id" := VStr "b1" ]}));
        (VMap ∅, Some (Create.mkResponse 400 ∅)) ]
    = Create.Done cr
    ∧ Create.SuccessfulCount cr = Z.of_nat (length (Create.SuccessfulResults cr)).
Proof.
  eexists. split; [vm_compute; reflexivity|].
  refine (proj1 (create_results_accounting
    [ (VMap ∅, Some (Create.mkResponse 201 {[ "beneficiary_id" := VStr "b1" ]}));
      (VMap ∅, Some (Create.mkResponse 400 ∅)) ] _ _ _));
    [vm_compute; reflexivity | reflexivity].
Defined.


